(** * SplatMaterial3D: the splat projection and shading of GaussianSplats3D

    [SplatMaterial3D.build] assembles two GLSL programs as strings: a vertex
    stage that projects the 3D covariance of a splat to a screen-space
    ellipse, and a fragment stage that evaluates the Gaussian falloff and a
    chain of colour effects.  This development embeds what those programs
    compute.  The JavaScript arguments that select or fill in shader text
    ([antialiased], [enableOptionalEffects], [maxScreenSpaceSplatSize],
    [kernel2DSize]) are arguments of the embedding; uniforms, attributes and
    varyings are record fields.

    GLSL [float] is read as a real number: rounding, infinities and NaN are
    outside the model.  Where GLSL leaves a result undefined (division by
    zero, [normalize] of the zero vector) the model has Rocq's total
    operations, for which [/ 0 = 0]. *)

From Stdlib Require Import Reals Lra Psatz ZArith QArith Qreals List Bool.
From Stdlib Require String.
Import ListNotations.
Local Open Scope R_scope.

(** ** The GLSL vector and matrix types used by the two shaders *)

Module GLSL.

Record vec2 := Vec2 { x2 : R; y2 : R }.
Record vec3 := Vec3 { x3 : R; y3 : R; z3 : R }.
Record vec4 := Vec4 { x4 : R; y4 : R; z4 : R; w4 : R }.

(** A [mat3] is stored as GLSL stores it: three column vectors. *)
Record mat3 := Mat3 { col0 : vec3; col1 : vec3; col2 : vec3 }.
Record mat4 := Mat4 { mcol0 : vec4; mcol1 : vec4; mcol2 : vec4; mcol3 : vec4 }.

(** [vec4.rgb] and [vec4.a], [vec3.xy]. *)
Definition rgb (c : vec4) : vec3 := Vec3 (x4 c) (y4 c) (z4 c).
Definition alpha (c : vec4) : R := w4 c.
Definition xy (v : vec3) : vec2 := Vec2 (x3 v) (y3 v).
Definition vec4_of (c : vec3) (a : R) : vec4 := Vec4 (x3 c) (y3 c) (z3 c) a.

Definition add2 (u v : vec2) : vec2 := Vec2 (x2 u + x2 v) (y2 u + y2 v).
Definition scale2 (v : vec2) (k : R) : vec2 := Vec2 (x2 v * k) (y2 v * k).
Definition scale2l (k : R) (v : vec2) : vec2 := Vec2 (k * x2 v) (k * y2 v).
(** [vec2 * vec2] is component-wise. *)
Definition mul2 (u v : vec2) : vec2 := Vec2 (x2 u * x2 v) (y2 u * y2 v).
Definition dot2 (u v : vec2) : R := x2 u * x2 v + y2 u * y2 v.
Definition length2 (v : vec2) : R := sqrt (dot2 v v).
Definition normalize2 (v : vec2) : vec2 :=
  Vec2 (x2 v / length2 v) (y2 v / length2 v).

Definition add3 (u v : vec3) : vec3 :=
  Vec3 (x3 u + x3 v) (y3 u + y3 v) (z3 u + z3 v).
Definition sub3 (u v : vec3) : vec3 :=
  Vec3 (x3 u - x3 v) (y3 u - y3 v) (z3 u - z3 v).
Definition scale3 (v : vec3) (k : R) : vec3 :=
  Vec3 (x3 v * k) (y3 v * k) (z3 v * k).
Definition dot3 (u v : vec3) : R := x3 u * x3 v + y3 u * y3 v + z3 u * z3 v.
(** [vec3(s)] *)
Definition splat3 (s : R) : vec3 := Vec3 s s s.
(** [mix(x, y, a) = x * (1 - a) + y * a], component-wise. *)
Definition mix3 (u v : vec3) (a : R) : vec3 :=
  add3 (scale3 u (1 - a)) (scale3 v a).

(** [fract(x) = x - floor(x)] *)
Definition fract (x : R) : R := x - IZR (Int_part x).

(** The nine-scalar constructor fills the matrix column by column. *)
Definition mat3_of (a0 a1 a2 b0 b1 b2 c0 c1 c2 : R) : mat3 :=
  Mat3 (Vec3 a0 a1 a2) (Vec3 b0 b1 b2) (Vec3 c0 c1 c2).

(** [mat3(m)] of a [mat4]: the upper-left 3x3 block. *)
Definition mat3_of_mat4 (m : mat4) : mat3 :=
  Mat3 (Vec3 (x4 (mcol0 m)) (y4 (mcol0 m)) (z4 (mcol0 m)))
       (Vec3 (x4 (mcol1 m)) (y4 (mcol1 m)) (z4 (mcol1 m)))
       (Vec3 (x4 (mcol2 m)) (y4 (mcol2 m)) (z4 (mcol2 m))).

Definition comp3 (v : vec3) (j : nat) : R :=
  match j with O => x3 v | S O => y3 v | _ => z3 v end.
Definition column (m : mat3) (i : nat) : vec3 :=
  match i with O => col0 m | S O => col1 m | _ => col2 m end.
(** [m[i][j]]: component [j] of column [i]. *)
Definition at3 (m : mat3) (i j : nat) : R := comp3 (column m i) j.

(** [m[i][i] += k] for the two entries the projection dilates. *)
Definition add_at00 (m : mat3) (k : R) : mat3 :=
  Mat3 (Vec3 (x3 (col0 m) + k) (y3 (col0 m)) (z3 (col0 m))) (col1 m) (col2 m).
Definition add_at11 (m : mat3) (k : R) : mat3 :=
  Mat3 (col0 m) (Vec3 (x3 (col1 m)) (y3 (col1 m) + k) (z3 (col1 m))) (col2 m).

Definition transpose (m : mat3) : mat3 :=
  Mat3 (Vec3 (x3 (col0 m)) (x3 (col1 m)) (x3 (col2 m)))
       (Vec3 (y3 (col0 m)) (y3 (col1 m)) (y3 (col2 m)))
       (Vec3 (z3 (col0 m)) (z3 (col1 m)) (z3 (col2 m))).

(** [m * v]: the linear combination of the columns of [m]. *)
Definition mulv (m : mat3) (v : vec3) : vec3 :=
  add3 (add3 (scale3 (col0 m) (x3 v)) (scale3 (col1 m) (y3 v)))
       (scale3 (col2 m) (z3 v)).

(** [a * b]: the linear-algebraic product, column [j] being [a * b[j]]. *)
Definition mulm (a b : mat3) : mat3 :=
  Mat3 (mulv a (col0 b)) (mulv a (col1 b)) (mulv a (col2 b)).

(** Equality of the entries mirrored across the diagonal. *)
Definition symmetric (m : mat3) : Prop :=
  at3 m 0 1 = at3 m 1 0 /\ at3 m 0 2 = at3 m 2 0 /\ at3 m 1 2 = at3 m 2 1.

(** The comparisons of the shaders, as booleans. *)
Definition ltb (a b : R) : bool := if Rlt_dec a b then true else false.
Definition gtb (a b : R) : bool := ltb b a.
Definition leb (a b : R) : bool := if Rle_dec a b then true else false.

End GLSL.
Import GLSL.

(** ** The fragment stage: [SplatMaterial3D.buildFragmentShader] *)

Module Fragment.

(** The uniforms the fragment program declares.  [debugColor] is declared
    by the shader and never read. *)
Record Uniforms := {
  debugColor : vec3;
  rainbowEffect : R;
  time : R;
  pulseEffect : R;
  pulseTime : R;
  glowEffect : R;
  invertEffect : R;
  positionEffect : R;
  positionOffset : vec3;
  positionTime : R
}.

Definition applyRainbowEffect (color : vec3) (time : R) : vec3 :=
  let hue := time in
  let rainbow :=
    Vec3 (sin (hue * 6.28318) * 0.5 + 0.5)
         (sin ((hue + 0.333) * 6.28318) * 0.5 + 0.5)
         (sin ((hue + 0.666) * 6.28318) * 0.5 + 0.5) in
  mix3 color rainbow 0.5.

Definition applyPulseEffect (time : R) : R := sin time * 0.5 + 0.5.

Definition applyGlowEffect (color : vec3) : vec3 := scale3 color 1.5.

Definition applyInvertEffect (color : vec3) : vec3 := sub3 (splat3 1.0) color.

(** The square wave of [applyPositionEffect]: [+1] on the first half of
    each period of [1 / frequency], [-1] on the second. *)
Definition wave (frequency time : R) : R :=
  if ltb (fract (time * frequency)) 0.5 then 1.0 else -1.0.

Definition applyPositionEffect (u : Uniforms) (position : vec2) (time : R)
  : vec2 :=
  let frequency := 15.0 in
  let wave := wave frequency time in
  add2 position
       (scale2 (Vec2 (x3 (positionOffset u)) (y3 (positionOffset u))) wave).

(** The first statement of [main]. *)
Definition finalPosition (u : Uniforms) (vPosition : vec2) : vec2 :=
  if gtb (positionEffect u) 0.0
  then applyPositionEffect u vPosition (positionTime u)
  else vPosition.

(** The colour part of [main], statement by statement. *)
Definition finalColor (u : Uniforms) (color : vec3) : vec3 :=
  let finalColor := color in
  let finalColor :=
    if gtb (rainbowEffect u) 0.0
    then applyRainbowEffect finalColor (time u) else finalColor in
  let finalColor :=
    if gtb (pulseEffect u) 0.0
    then let pulse := applyPulseEffect (pulseTime u) in
         mix3 finalColor (scale3 finalColor pulse) 0.5
    else finalColor in
  let finalColor :=
    if gtb (glowEffect u) 0.0
    then applyGlowEffect finalColor else finalColor in
  let finalColor :=
    if gtb (invertEffect u) 0.0
    then applyInvertEffect finalColor else finalColor in
  finalColor.

(** [main]: [None] is [discard], [Some c] is the value of [gl_FragColor]. *)
Definition main (u : Uniforms) (vColor : vec4) (vPosition : vec2)
  : option vec4 :=
  let finalPosition := finalPosition u vPosition in
  let A := dot2 finalPosition finalPosition in
  if gtb A 8.0 then None
  else
    let color := rgb vColor in
    let opacity := exp (-0.5 * A) * alpha vColor in
    Some (vec4_of (finalColor u color) opacity).

(** *** The effect chain as a list

    The colour effects named as data, with the order [main] runs them in,
    to state that order independently of the text of [finalColor]. *)

Inductive Effect := Rainbow | Pulse | Glow | Invert.

Definition effectOrder : list Effect := [Rainbow; Pulse; Glow; Invert].

Definition enabled (u : Uniforms) (e : Effect) : bool :=
  match e with
  | Rainbow => gtb (rainbowEffect u) 0.0
  | Pulse => gtb (pulseEffect u) 0.0
  | Glow => gtb (glowEffect u) 0.0
  | Invert => gtb (invertEffect u) 0.0
  end.

Definition applyEffect (u : Uniforms) (e : Effect) (c : vec3) : vec3 :=
  match e with
  | Rainbow => applyRainbowEffect c (time u)
  | Pulse => mix3 c (scale3 c (applyPulseEffect (pulseTime u))) 0.5
  | Glow => applyGlowEffect c
  | Invert => applyInvertEffect c
  end.

(** Run a list of effects from left to right. *)
Definition runEffects (u : Uniforms) (es : list Effect) (c : vec3) : vec3 :=
  fold_left (fun acc e => applyEffect u e acc) es c.

(** All effects off, as [SplatMaterial3D.build] initialises the uniforms. *)
Definition initialUniforms : Uniforms :=
  {| debugColor := Vec3 1 0 0;
     rainbowEffect := 0; time := 0; pulseEffect := 0; pulseTime := 0;
     glowEffect := 0; invertEffect := 0; positionEffect := 0;
     positionOffset := Vec3 0 0 0; positionTime := 0 |}.

Definition withColorEffects (u : Uniforms) (r p g i : R) : Uniforms :=
  {| debugColor := debugColor u;
     rainbowEffect := r; time := time u;
     pulseEffect := p; pulseTime := pulseTime u;
     glowEffect := g; invertEffect := i;
     positionEffect := positionEffect u;
     positionOffset := positionOffset u;
     positionTime := positionTime u |}.

(** Glow and invert enabled, every other effect off. *)
Definition glowInvert : Uniforms := withColorEffects initialUniforms 0 0 1 1.

(** The jitter enabled with offset (1,2,0) at time 0, colour effects off. *)
Definition jitterOn : Uniforms :=
  {| debugColor := Vec3 1 0 0;
     rainbowEffect := 0; time := 0; pulseEffect := 0; pulseTime := 0;
     glowEffect := 0; invertEffect := 0; positionEffect := 1;
     positionOffset := Vec3 1 2 0; positionTime := 0 |}.

(** The jitter enabled with offset (1,0,0) at time 1/60, colour effects
    off. *)
Definition jitterSixtieth : Uniforms :=
  {| debugColor := Vec3 1 0 0;
     rainbowEffect := 0; time := 0; pulseEffect := 0; pulseTime := 0;
     glowEffect := 0; invertEffect := 0; positionEffect := 1;
     positionOffset := Vec3 1 0 0; positionTime := 1 / 60 |}.

End Fragment.

(** ** The JavaScript side of the shader text *)

Module JS.

(** A finite JavaScript number is a binary fraction, hence a rational. *)
Definition number := Q.

(** [parseInt(x)] of a number accepted by [plainDecimal] below: the digits
    JavaScript prints in front of the decimal point, that is [x] truncated
    toward zero.  Outside that range [parseInt] reads other digits (the
    leading digit of an exponent notation), which this definition does not
    give: every statement about the value of the clamp assumes
    [plainDecimal]. *)
Definition parseInt (x : number) : Z := Z.quot (Qnum x) (Zpos (Qden x)).

(** The numbers JavaScript prints in plain decimal notation with an exact
    integer part: zero, or a magnitude from 1e-6 (below it the text is an
    exponent notation such as [5e-7]) to below 2^53 (from there on the
    printed digits are rounded, and from 1e21 on the text is again an
    exponent notation such as [1e+21]). *)
Definition plainDecimal (x : number) : bool :=
  (Qeq_bool x 0
   || (Qle_bool (1 # 1000000) x && negb (Qle_bool 9007199254740992 x))
   || (Qle_bool x (- (1 # 1000000))
       && negb (Qle_bool x (- 9007199254740992))))%Q.

(** A number interpolated into shader text, read back as a literal. *)
Definition literal (x : number) : R := Q2R x.

(** [`${parseInt(x)}.0`] *)
Definition intLiteral (x : number) : R := IZR (parseInt x).

End JS.

(** ** The vertex stage: [SplatMaterial3D.buildVertexShaderProjection] *)

Module Vertex.

(** Modelled from the spec: the constant [sqrt8] is declared by
    [SplatMaterial.buildVertexShaderBase], whose file is not among the
    sources; the specification and the comments of the projection give it
    as the square root of eight. *)
Definition sqrt8 : R := sqrt 8.

(** What the projection reads and did not compute itself: uniforms,
    attributes and locals set up by [SplatMaterial.buildVertexShaderBase],
    and the two covariance vectors fetched from the covariance texture. *)
Record Env := {
  cov3D_M11_M12_M13 : vec3;
  cov3D_M22_M23_M33 : vec3;
  orthographicMode : Z;
  orthoZoom : R;
  viewCenter : vec3;
  focal : vec2;
  transformModelViewMatrix : mat4;
  minAlpha : R;
  pointCloudModeEnabled : Z;
  splatScale : R;
  splatOpacityFromScene : R;
  vColor : vec4;
  vPosition : vec2;
  basisViewport : vec2;
  inverseFocalAdjustment : R;
  ndcCenter : vec3
}.

(** [vColor.a *= k] *)
Definition mul_alpha (c : vec4) (k : R) : vec4 :=
  Vec4 (x4 c) (y4 c) (z4 c) (w4 c * k).

(** "Construct the 3D covariance matrix" *)
Definition Vrk (e : Env) : mat3 :=
  let c1 := cov3D_M11_M12_M13 e in
  let c2 := cov3D_M22_M23_M33 e in
  mat3_of (x3 c1) (y3 c1) (z3 c1)
          (y3 c1) (x3 c2) (y3 c2)
          (z3 c1) (y3 c2) (z3 c2).

Definition J (e : Env) : mat3 :=
  if Z.eqb (orthographicMode e) 1 then
    transpose (mat3_of (orthoZoom e) 0.0 0.0
                       0.0 (orthoZoom e) 0.0
                       0.0 0.0 0.0)
  else
    let s := 1.0 / (z3 (viewCenter e) * z3 (viewCenter e)) in
    mat3_of
      (x2 (focal e) / z3 (viewCenter e)) 0
        (- (x2 (focal e) * x3 (viewCenter e)) * s)
      0 (y2 (focal e) / z3 (viewCenter e))
        (- (y2 (focal e) * y3 (viewCenter e)) * s)
      0 0 0.

Definition W (e : Env) : mat3 :=
  transpose (mat3_of_mat4 (transformModelViewMatrix e)).

Definition T (e : Env) : mat3 := mulm (W e) (J e).

(** "Transform the 3D covariance matrix (Vrk) to compute the 2D
    covariance matrix" *)
Definition cov2Dm (e : Env) : mat3 :=
  mulm (mulm (transpose (T e)) (Vrk e)) (T e).

(** The block appended according to [antialiased]: the dilated matrix and
    the colour, or [None] when the shader returns. *)
Definition dilate (antialiased : bool) (kernel2DSize minAlpha : R)
           (cov2Dm : mat3) (vColor : vec4) : option (mat3 * vec4) :=
  if antialiased then
    let detOrig :=
      at3 cov2Dm 0 0 * at3 cov2Dm 1 1 - at3 cov2Dm 0 1 * at3 cov2Dm 0 1 in
    let cov2Dm := add_at00 cov2Dm kernel2DSize in
    let cov2Dm := add_at11 cov2Dm kernel2DSize in
    let detBlur :=
      at3 cov2Dm 0 0 * at3 cov2Dm 1 1 - at3 cov2Dm 0 1 * at3 cov2Dm 0 1 in
    let vColor := mul_alpha vColor (sqrt (Rmax (detOrig / detBlur) 0.0)) in
    if ltb (alpha vColor) minAlpha then None else Some (cov2Dm, vColor)
  else
    let cov2Dm := add_at00 cov2Dm kernel2DSize in
    let cov2Dm := add_at11 cov2Dm kernel2DSize in
    Some (cov2Dm, vColor).

Definition cov2Dv (cov2Dm : mat3) : vec3 :=
  Vec3 (at3 cov2Dm 0 0) (at3 cov2Dm 0 1) (at3 cov2Dm 1 1).

(** The closed-form eigenvalues of the symmetric matrix [[a b] [b d]]. *)
Definition eigenSolve (cov2Dv : vec3) : R * R :=
  let a := x3 cov2Dv in
  let d := z3 cov2Dv in
  let b := y3 cov2Dv in
  let D := a * d - b * b in
  let trace := a + d in
  let traceOver2 := 0.5 * trace in
  let term2 := sqrt (Rmax 0.1 (traceOver2 * traceOver2 - D)) in
  let eigenValue1 := traceOver2 + term2 in
  let eigenValue2 := traceOver2 - term2 in
  (eigenValue1, eigenValue2).

(** The eigenvalues after the point-cloud override. *)
Definition eigenValues (pointCloudModeEnabled : Z) (cov2Dv : vec3) : R * R :=
  let '(eigenValue1, eigenValue2) := eigenSolve cov2Dv in
  if Z.eqb pointCloudModeEnabled 1 then (0.2, 0.2)
  else (eigenValue1, eigenValue2).

Record Basis := {
  eigenVector1 : vec2;
  eigenVector2 : vec2;
  basisVector1 : vec2;
  basisVector2 : vec2
}.

Definition basis (maxScreenSpaceSplatSize : JS.number) (splatScale : R)
           (cov2Dv : vec3) (eigenValue1 eigenValue2 : R) : Basis :=
  let a := x3 cov2Dv in
  let b := y3 cov2Dv in
  let eigenVector1 := normalize2 (Vec2 b (eigenValue1 - a)) in
  let eigenVector2 := Vec2 (y2 eigenVector1) (- x2 eigenVector1) in
  let basisVector1 :=
    scale2 (scale2 eigenVector1 splatScale)
           (Rmin (sqrt8 * sqrt eigenValue1)
                 (JS.intLiteral maxScreenSpaceSplatSize)) in
  let basisVector2 :=
    scale2 (scale2 eigenVector2 splatScale)
           (Rmin (sqrt8 * sqrt eigenValue2)
                 (JS.intLiteral maxScreenSpaceSplatSize)) in
  {| eigenVector1 := eigenVector1; eigenVector2 := eigenVector2;
     basisVector1 := basisVector1; basisVector2 := basisVector2 |}.

(** What the stage has written when it reaches the fade-in code. *)
Record Out := {
  gl_Position : vec4;
  out_vPosition : vec2;
  out_vColor : vec4
}.

(** The quad corner and the varyings, from the basis. *)
Definition emit (enableOptionalEffects : bool) (e : Env) (vColor : vec4)
           (B : Basis) : Out :=
  let vColor :=
    if enableOptionalEffects
    then mul_alpha vColor (splatOpacityFromScene e) else vColor in
  let ndcOffset :=
    scale2
      (scale2
         (mul2 (add2 (scale2l (x2 (vPosition e)) (basisVector1 B))
                     (scale2l (y2 (vPosition e)) (basisVector2 B)))
               (basisViewport e))
         2.0)
      (inverseFocalAdjustment e) in
  let quadPos :=
    Vec4 (x3 (ndcCenter e) + x2 ndcOffset) (y3 (ndcCenter e) + y2 ndcOffset)
         (z3 (ndcCenter e)) 1.0 in
  {| gl_Position := quadPos;
     out_vPosition := scale2 (vPosition e) sqrt8;
     out_vColor := vColor |}.

(** The whole projection, up to the fade-in code that
    [SplatMaterial.getVertexShaderFadeIn] appends.  [None]: the shader
    returned early and wrote no quad corner. *)
Definition buildVertexShaderProjection
           (antialiased enableOptionalEffects : bool)
           (maxScreenSpaceSplatSize kernel2DSize : JS.number)
           (e : Env) : option Out :=
  match dilate antialiased (JS.literal kernel2DSize) (minAlpha e)
               (cov2Dm e) (vColor e) with
  | None => None
  | Some (cov2Dm, vColor) =>
      let cov2Dv := cov2Dv cov2Dm in
      let '(eigenValue1, eigenValue2) :=
        eigenValues (pointCloudModeEnabled e) cov2Dv in
      if leb eigenValue2 0.0 then None
      else
        Some (emit enableOptionalEffects e vColor
                   (basis maxScreenSpaceSplatSize (splatScale e) cov2Dv
                          eigenValue1 eigenValue2))
  end.

(** The defaults of [SplatMaterial3D.build] for the two numbers that end
    up in the shader text. *)
Definition defaultMaxScreenSpaceSplatSize : JS.number := 2048%Q.
Definition defaultKernel2DSize : JS.number := (3 # 10)%Q.

(** The environment [e] with the covariance vectors that hold the upper
    triangle of [m]. *)
Definition withVrk (e : Env) (m : mat3) : Env :=
  {| cov3D_M11_M12_M13 := col0 m;
     cov3D_M22_M23_M33 := Vec3 (y3 (col1 m)) (z3 (col1 m)) (z3 (col2 m));
     orthographicMode := orthographicMode e;
     orthoZoom := orthoZoom e;
     viewCenter := viewCenter e;
     focal := focal e;
     transformModelViewMatrix := transformModelViewMatrix e;
     minAlpha := minAlpha e;
     pointCloudModeEnabled := pointCloudModeEnabled e;
     splatScale := splatScale e;
     splatOpacityFromScene := splatOpacityFromScene e;
     vColor := vColor e;
     vPosition := vPosition e;
     basisViewport := basisViewport e;
     inverseFocalAdjustment := inverseFocalAdjustment e;
     ndcCenter := ndcCenter e |}.

Definition identity3 : mat3 := mat3_of 1 0 0 0 1 0 0 0 1.

(** The scenario of the specification: unit covariance seen in perspective
    from distance 5 with focal lengths 1000 and the identity model view. *)
Definition identityModelView : mat4 :=
  Mat4 (Vec4 1 0 0 0) (Vec4 0 1 0 0) (Vec4 0 0 1 0) (Vec4 0 0 0 1).

(** A splat seen through the identity model view from distance 5 with
    focal lengths 1000 and unit zoom, scale and viewport factors. *)
Definition sampleSplat (c1 c2 : vec3) (ortho pointCloud : Z) (color : vec4)
           (cut : R) : Env :=
  {| cov3D_M11_M12_M13 := c1;
     cov3D_M22_M23_M33 := c2;
     orthographicMode := ortho;
     orthoZoom := 1;
     viewCenter := Vec3 0 0 5;
     focal := Vec2 1000 1000;
     transformModelViewMatrix := identityModelView;
     minAlpha := cut;
     pointCloudModeEnabled := pointCloud;
     splatScale := 1;
     splatOpacityFromScene := 1;
     vColor := color;
     vPosition := Vec2 1 1;
     basisViewport := Vec2 1 1;
     inverseFocalAdjustment := 1;
     ndcCenter := Vec3 0 0 0 |}.

Definition unitSplat : Env :=
  sampleSplat (Vec3 1 0 0) (Vec3 1 0 1) 0 0 (Vec4 1 1 1 1) 0.

(** The unit splat in point-cloud mode. *)
Definition pointSplat : Env :=
  sampleSplat (Vec3 1 0 0) (Vec3 1 0 1) 0 1 (Vec4 1 1 1 1) 0.

(** An indefinite covariance under an orthographic camera: with the
    dilation 0.3 its 2D covariance is [diag(1, -0.01)]. *)
Definition degenerateSplat : Env :=
  sampleSplat (Vec3 0.7 0 0) (Vec3 (-0.31) 0 0) 1 0 (Vec4 1 1 1 1) 0.

(** The unit covariance one unit to the right of the optical axis at
    depth one, with unit focal lengths. *)
Definition offAxisSplat : Env :=
  {| cov3D_M11_M12_M13 := Vec3 1 0 0;
     cov3D_M22_M23_M33 := Vec3 1 0 1;
     orthographicMode := 0;
     orthoZoom := 1;
     viewCenter := Vec3 1 0 1;
     focal := Vec2 1 1;
     transformModelViewMatrix := identityModelView;
     minAlpha := 0;
     pointCloudModeEnabled := 0;
     splatScale := 1;
     splatOpacityFromScene := 1;
     vColor := Vec4 1 1 1 1;
     vPosition := Vec2 1 1;
     basisViewport := Vec2 1 1;
     inverseFocalAdjustment := 1;
     ndcCenter := Vec3 0 0 0 |}.

(** The 2D covariance of [degenerateSplat] after the default dilation. *)
Definition degenerateDilated : mat3 :=
  add_at11 (add_at00 (cov2Dm degenerateSplat) (JS.literal defaultKernel2DSize))
           (JS.literal defaultKernel2DSize).

End Vertex.

(** ** Fetching the covariance: the head of the projection

    The first statements of [buildVertexShaderProjection] and the helper
    [fromCovarianceHalfFloatV4] of [build].  The texture reads themselves
    are inputs: the two float texels, or the one packed texel. *)

Module CovarianceFetch.

Record uvec4 := UVec4 { ur : Z; ug : Z; ub : Z; ua : Z }.

Section HalfFloat.

(** The value of a 16-bit half-precision pattern. *)
Variable halfToFloat : Z -> R.

(** GLSL [unpackHalf2x16]: the first component comes from the 16 least
    significant bits, the second from the 16 most significant. *)
Definition unpackHalf2x16 (v : Z) : vec2 :=
  Vec2 (halfToFloat (Z.land v 65535)) (halfToFloat (Z.shiftr v 16)).

Definition fromCovarianceHalfFloatV4 (val : uvec4) : vec4 * vec4 :=
  let r := unpackHalf2x16 (ur val) in
  let g := unpackHalf2x16 (ug val) in
  let b := unpackHalf2x16 (ub val) in
  let first := Vec4 (x2 r) (y2 r) (x2 g) (y2 g) in
  let second := Vec4 (x2 b) (y2 b) 0.0 0.0 in
  (first, second).

(** [cov3D_M11_M12_M13] and [cov3D_M22_M23_M33] from the sampled texels. *)
Definition covarianceVectors (covariancesAreHalfFloat : Z) (fOddOffset : R)
           (sampledCovarianceA sampledCovarianceB : vec4)
           (sampledCovarianceU : uvec4) : vec3 * vec3 :=
  if Z.eqb covariancesAreHalfFloat 0 then
    let a := sampledCovarianceA in
    let b := sampledCovarianceB in
    (add3 (scale3 (Vec3 (x4 a) (y4 a) (z4 a)) (1.0 - fOddOffset))
          (scale3 (Vec3 (z4 a) (w4 a) (x4 b)) fOddOffset),
     add3 (scale3 (Vec3 (w4 a) (x4 b) (y4 b)) (1.0 - fOddOffset))
          (scale3 (Vec3 (y4 b) (z4 b) (w4 b)) fOddOffset))
  else
    let '(a, b) := fromCovarianceHalfFloatV4 sampledCovarianceU in
    (Vec3 (x4 a) (y4 a) (z4 a), Vec3 (w4 a) (x4 b) (y4 b)).

End HalfFloat.

(** The six scalars of the two covariance vectors, in order. *)
Definition scalars (c : vec3 * vec3) : list R :=
  [x3 (fst c); y3 (fst c); z3 (fst c); x3 (snd c); y3 (snd c); z3 (snd c)].

(** The eight floats of two consecutive texels, in order. *)
Definition texels (a b : vec4) : list R :=
  [x4 a; y4 a; z4 a; w4 a; x4 b; y4 b; z4 b; w4 b].

(** A matrix is positive semi-definite when its quadratic form is never
    negative. *)
Definition psd (m : mat3) : Prop := forall v : vec3, 0 <= dot3 v (mulv m v).

(** The environment [e] drawn at the quad corner [q]. *)
Definition withVPosition (e : Vertex.Env) (q : vec2) : Vertex.Env :=
  {| Vertex.cov3D_M11_M12_M13 := Vertex.cov3D_M11_M12_M13 e;
     Vertex.cov3D_M22_M23_M33 := Vertex.cov3D_M22_M23_M33 e;
     Vertex.orthographicMode := Vertex.orthographicMode e;
     Vertex.orthoZoom := Vertex.orthoZoom e;
     Vertex.viewCenter := Vertex.viewCenter e;
     Vertex.focal := Vertex.focal e;
     Vertex.transformModelViewMatrix := Vertex.transformModelViewMatrix e;
     Vertex.minAlpha := Vertex.minAlpha e;
     Vertex.pointCloudModeEnabled := Vertex.pointCloudModeEnabled e;
     Vertex.splatScale := Vertex.splatScale e;
     Vertex.splatOpacityFromScene := Vertex.splatOpacityFromScene e;
     Vertex.vColor := Vertex.vColor e;
     Vertex.vPosition := q;
     Vertex.basisViewport := Vertex.basisViewport e;
     Vertex.inverseFocalAdjustment := Vertex.inverseFocalAdjustment e;
     Vertex.ndcCenter := Vertex.ndcCenter e |}.

(** A splat without extent, seen as [sampleSplat] is. *)
Definition zeroSplat : Vertex.Env :=
  Vertex.sampleSplat (Vec3 0 0 0) (Vec3 0 0 0) 0 0 (Vec4 1 1 1 1) 0.

End CovarianceFetch.

(** ** The loading spinner: [src/ui/LoadingSpinner.js]

    The task list and what it drives: the [display] styles of the three
    containers and the text of the two message containers.  The DOM tree
    itself ([setContainer], class names, the style sheet) is left out. *)

Module Spinner.
Import String.
Local Open Scope string_scope.

Record Task := mkTask { message : string; id : nat }.

(** The arguments of a call to [fadeElement], whose file is not among the
    sources: what is stored in [fadeTransitions] stands for its result. *)
Record Fade := mkFade {
  fadeOut : bool;
  fadeDisplayStyle : string;
  fadeDuration : nat
}.

Definition STANDARD_FADE_DURATION : nat := 500.

Record LoadingSpinner := mkSpinner {
  taskIDGen : nat;
  elementID : nat;
  tasks : list Task;
  spinnerMessage : string;
  outerDisplay : string;
  primaryDisplay : string;
  minDisplay : string;
  messagePrimary : string;
  messageMin : string;
  visible : option bool;
  minimized : bool;
  fadeTransition0 : option Fade;
  fadeTransition1 : option Fade
}.

(** [showHideSpinner] for the primary container (index 0) and the
    minimized one (index 1). *)
Definition showHidePrimary (show instant : bool) (s : LoadingSpinner)
  : LoadingSpinner :=
  if instant then
    mkSpinner (taskIDGen s) (elementID s) (tasks s) (spinnerMessage s)
      (outerDisplay s) (if show then "block" else "none") (minDisplay s)
      (messagePrimary s) (messageMin s) (visible s) (minimized s)
      (fadeTransition0 s) (fadeTransition1 s)
  else
    mkSpinner (taskIDGen s) (elementID s) (tasks s) (spinnerMessage s)
      (outerDisplay s) (primaryDisplay s) (minDisplay s)
      (messagePrimary s) (messageMin s) (visible s) (minimized s)
      (Some (mkFade (negb show) "block" STANDARD_FADE_DURATION))
      (fadeTransition1 s).

Definition showHideMin (show instant : bool) (s : LoadingSpinner)
  : LoadingSpinner :=
  if instant then
    mkSpinner (taskIDGen s) (elementID s) (tasks s) (spinnerMessage s)
      (outerDisplay s) (primaryDisplay s) (if show then "flex" else "none")
      (messagePrimary s) (messageMin s) (visible s) (minimized s)
      (fadeTransition0 s) (fadeTransition1 s)
  else
    mkSpinner (taskIDGen s) (elementID s) (tasks s) (spinnerMessage s)
      (outerDisplay s) (primaryDisplay s) (minDisplay s)
      (messagePrimary s) (messageMin s) (visible s) (minimized s)
      (fadeTransition0 s)
      (Some (mkFade (negb show) "flex" STANDARD_FADE_DURATION)).

Definition setMinimized (minimized instant : bool) (s : LoadingSpinner)
  : LoadingSpinner :=
  let s := showHidePrimary (negb minimized) instant s in
  let s := showHideMin minimized instant s in
  mkSpinner (taskIDGen s) (elementID s) (tasks s) (spinnerMessage s)
    (outerDisplay s) (primaryDisplay s) (minDisplay s)
    (messagePrimary s) (messageMin s) (visible s) minimized
    (fadeTransition0 s) (fadeTransition1 s).

(** [message || 'Loading...']: an absent or empty message is falsy. *)
Definition messageOrDefault (message : option string) : string :=
  match message with
  | Some m => if String.eqb m "" then "Loading..." else m
  | None => "Loading..."
  end.

(** The constructor, threading the static counter [elementIDGen]; it ends
    with [setMinimized(false, true)] and an empty [fadeTransitions]. *)
Definition construct (elementIDGen : nat) (message : option string)
  : LoadingSpinner * nat :=
  let msg := messageOrDefault message in
  let s :=
    setMinimized false true
      (mkSpinner 0 elementIDGen [] msg "none" "" "" msg msg None false
                 None None) in
  (mkSpinner (taskIDGen s) (elementID s) (tasks s) (spinnerMessage s)
     (outerDisplay s) (primaryDisplay s) (minDisplay s)
     (messagePrimary s) (messageMin s) (visible s) (minimized s) None None,
   S elementIDGen).

Definition withTasks (ts : list Task) (gen : nat) (s : LoadingSpinner)
  : LoadingSpinner :=
  mkSpinner gen (elementID s) ts (spinnerMessage s)
    (outerDisplay s) (primaryDisplay s) (minDisplay s)
    (messagePrimary s) (messageMin s) (visible s) (minimized s)
    (fadeTransition0 s) (fadeTransition1 s).

Definition show (s : LoadingSpinner) : LoadingSpinner :=
  mkSpinner (taskIDGen s) (elementID s) (tasks s) (spinnerMessage s)
    "block" (primaryDisplay s) (minDisplay s)
    (messagePrimary s) (messageMin s) (Some true) (minimized s)
    (fadeTransition0 s) (fadeTransition1 s).

Definition hide (s : LoadingSpinner) : LoadingSpinner :=
  mkSpinner (taskIDGen s) (elementID s) (tasks s) (spinnerMessage s)
    "none" (primaryDisplay s) (minDisplay s)
    (messagePrimary s) (messageMin s) (Some false) (minimized s)
    (fadeTransition0 s) (fadeTransition1 s).

Definition setMessage (msg : string) (s : LoadingSpinner) : LoadingSpinner :=
  mkSpinner (taskIDGen s) (elementID s) (tasks s) (spinnerMessage s)
    (outerDisplay s) (primaryDisplay s) (minDisplay s)
    msg msg (visible s) (minimized s)
    (fadeTransition0 s) (fadeTransition1 s).

(** [this.tasks[this.tasks.length - 1]], read only when the list is not
    empty. *)
Definition lastTask (ts : list Task) : Task :=
  nth (List.length ts - 1) ts (mkTask "" 0).

Definition update (s : LoadingSpinner) : LoadingSpinner :=
  if (0 <? List.length (tasks s))%nat
  then setMessage (message (lastTask (tasks s))) (show s)
  else hide s.

Definition addTask (msg : string) (s : LoadingSpinner)
  : nat * LoadingSpinner :=
  let newTask := mkTask msg (taskIDGen s) in
  let s := withTasks (tasks s ++ [newTask]) (S (taskIDGen s)) s in
  (id newTask, update s).

(** The loop of [removeTask]: splice out the first task with this id. *)
Fixpoint spliceFirst (i : nat) (ts : list Task) : list Task :=
  match ts with
  | [] => []
  | t :: rest => if (id t =? i)%nat then rest else t :: spliceFirst i rest
  end.

Definition removeTask (i : nat) (s : LoadingSpinner) : LoadingSpinner :=
  update (withTasks (spliceFirst i (tasks s)) (taskIDGen s) s).

Definition removeAllTasks (s : LoadingSpinner) : LoadingSpinner :=
  update (withTasks [] (taskIDGen s) s).

(** The loop of [setMessageForTask]: the first task with this id gets the
    message. *)
Fixpoint assignFirst (i : nat) (msg : string) (ts : list Task) : list Task :=
  match ts with
  | [] => []
  | t :: rest =>
      if (id t =? i)%nat then mkTask msg (id t) :: rest
      else t :: assignFirst i msg rest
  end.

Definition setMessageForTask (i : nat) (msg : string) (s : LoadingSpinner)
  : LoadingSpinner :=
  update (withTasks (assignFirst i msg (tasks s)) (taskIDGen s) s).

(** The public methods as data, to speak of every sequence of calls. *)
Inductive Call :=
| AddTask (msg : string)
| RemoveTask (i : nat)
| RemoveAllTasks
| SetMessageForTask (i : nat) (msg : string)
| Update
| Show
| Hide
| SetMinimized (minimized instant : bool)
| SetMessage (msg : string).

Definition call (s : LoadingSpinner) (c : Call) : LoadingSpinner :=
  match c with
  | AddTask msg => snd (addTask msg s)
  | RemoveTask i => removeTask i s
  | RemoveAllTasks => removeAllTasks s
  | SetMessageForTask i msg => setMessageForTask i msg s
  | Update => update s
  | Show => show s
  | Hide => hide s
  | SetMinimized m i => setMinimized m i s
  | SetMessage msg => setMessage msg s
  end.

Definition run (cs : list Call) (s : LoadingSpinner) : LoadingSpinner :=
  fold_left call cs s.

(** The calls that end in [update()]. *)
Definition isTaskCall (c : Call) : bool :=
  match c with
  | AddTask _ | RemoveTask _ | RemoveAllTasks | SetMessageForTask _ _
  | Update => true
  | _ => false
  end.

Definition ids (s : LoadingSpinner) : list nat := map id (tasks s).

(** The ids in the list are pairwise different and below the counter. *)
Definition idsFresh (s : LoadingSpinner) : Prop :=
  NoDup (ids s) /\ Forall (fun i => (i < taskIDGen s)%nat) (ids s).

End Spinner.

(** ** The effect buttons of the info panel: [src/ui/InfoPanel.js]

    The five buttons and their click listener.  The toggle state of a
    button is the presence of the class [active]. *)

Module Panel.
Import String.
Local Open Scope string_scope.

(** The [data-effect] ids of the buttons, in the order they are built. *)
Definition effects : list string :=
  ["rainbow"; "pulse"; "glow"; "invert"; "position"].

(** The [detail] of the [effectChanged] event. *)
Record Detail := mkDetail { effect : string; active : bool }.

(** Which buttons carry the class [active]. *)
Definition Buttons := string -> bool.

Definition initialButtons : Buttons := fun _ => false.

(** The click listener of the button for [effect]: toggle the class and
    dispatch the event with the negation of the old state. *)
Definition click (effect : string) (b : Buttons) : Buttons * Detail :=
  let isActive := b effect in
  let b' := fun e => if String.eqb e effect then negb (b e) else b e in
  (b', mkDetail effect (negb isActive)).

(** A sequence of clicks: the final classes and the events in order. *)
Fixpoint clicks (es : list string) (b : Buttons) : Buttons * list Detail :=
  match es with
  | [] => (b, [])
  | e :: rest =>
      let '(b1, d) := click e b in
      let '(b2, ds) := clicks rest b1 in
      (b2, d :: ds)
  end.

End Panel.

(** ** The effect handlers of the implementation guide

    [handleEffectChange] and the four [apply...Effect] methods, with the
    animation loops they start: a loop is a callback waiting in
    [requestAnimationFrame], and a frame runs every waiting callback
    once.  The uniform values are read as reals, as in the shader. *)

Module Handlers.
Import String.
Local Open Scope string_scope.

Record State := mkState {
  rainbowEffect : Z;
  time : R;
  pulseEffect : Z;
  pulseTime : R;
  glowEffect : Z;
  invertEffect : Z;
  uniformsNeedUpdate : bool;
  (** callbacks [updateTime] and [updatePulse] waiting for the next frame *)
  rainbowLoops : nat;
  pulseLoops : nat
}.

(** One run of the closure [updateTime]. *)
Definition updateTime (s : State) : State :=
  if Z.eqb (rainbowEffect s) 1 then
    mkState (rainbowEffect s) (time s + 0.01) (pulseEffect s) (pulseTime s)
      (glowEffect s) (invertEffect s) (uniformsNeedUpdate s)
      (S (rainbowLoops s)) (pulseLoops s)
  else s.

(** One run of the closure [updatePulse]. *)
Definition updatePulse (s : State) : State :=
  if Z.eqb (pulseEffect s) 1 then
    mkState (rainbowEffect s) (time s) (pulseEffect s) (pulseTime s + 0.05)
      (glowEffect s) (invertEffect s) (uniformsNeedUpdate s)
      (rainbowLoops s) (S (pulseLoops s))
  else s.

Definition needUpdate (s : State) : State :=
  mkState (rainbowEffect s) (time s) (pulseEffect s) (pulseTime s)
    (glowEffect s) (invertEffect s) true (rainbowLoops s) (pulseLoops s).

Definition applyRainbowEffect (active : bool) (s : State) : State :=
  needUpdate
    (if active then
       updateTime
         (mkState 1 0 (pulseEffect s) (pulseTime s)
            (glowEffect s) (invertEffect s) (uniformsNeedUpdate s)
            (rainbowLoops s) (pulseLoops s))
     else
       mkState 0 (time s) (pulseEffect s) (pulseTime s)
         (glowEffect s) (invertEffect s) (uniformsNeedUpdate s)
         (rainbowLoops s) (pulseLoops s)).

Definition applyPulseEffect (active : bool) (s : State) : State :=
  needUpdate
    (if active then
       updatePulse
         (mkState (rainbowEffect s) (time s) 1 0
            (glowEffect s) (invertEffect s) (uniformsNeedUpdate s)
            (rainbowLoops s) (pulseLoops s))
     else
       mkState (rainbowEffect s) (time s) 0 (pulseTime s)
         (glowEffect s) (invertEffect s) (uniformsNeedUpdate s)
         (rainbowLoops s) (pulseLoops s)).

Definition applyGlowEffect (active : bool) (s : State) : State :=
  needUpdate
    (mkState (rainbowEffect s) (time s) (pulseEffect s) (pulseTime s)
       (if active then 1 else 0)%Z (invertEffect s) (uniformsNeedUpdate s)
       (rainbowLoops s) (pulseLoops s)).

Definition applyInvertEffect (active : bool) (s : State) : State :=
  needUpdate
    (mkState (rainbowEffect s) (time s) (pulseEffect s) (pulseTime s)
       (glowEffect s) (if active then 1 else 0)%Z (uniformsNeedUpdate s)
       (rainbowLoops s) (pulseLoops s)).

(** The [switch] has no default case. *)
Definition handleEffectChange (effectName : string) (active : bool)
           (s : State) : State :=
  if String.eqb effectName "rainbow" then applyRainbowEffect active s
  else if String.eqb effectName "pulse" then applyPulseEffect active s
  else if String.eqb effectName "glow" then applyGlowEffect active s
  else if String.eqb effectName "invert" then applyInvertEffect active s
  else s.

(** An animation frame: the callbacks that were waiting are taken off the
    queue and each runs once; those that go on register again. *)
Definition frame (s : State) : State :=
  let waitingRainbow := rainbowLoops s in
  let waitingPulse := pulseLoops s in
  let s :=
    mkState (rainbowEffect s) (time s) (pulseEffect s) (pulseTime s)
      (glowEffect s) (invertEffect s) (uniformsNeedUpdate s) 0 0 in
  let s := Nat.iter waitingRainbow updateTime s in
  Nat.iter waitingPulse updatePulse s.

Definition frames (k : nat) (s : State) : State := Nat.iter k frame s.

(** The uniforms as [SplatMaterial3D.build] leaves them, no loop running. *)
Definition initialState : State := mkState 0 0 0 0 0 0 false 0 0.

End Handlers.

(** * Properties of the fragment stage *)

Import Fragment.

(** ** Auxiliary facts *)

Lemma ltb_true a b : ltb a b = true <-> a < b.
Proof. unfold ltb; destruct (Rlt_dec a b); split; intros; try easy. Qed.

Lemma ltb_false a b : ltb a b = false <-> b <= a.
Proof.
  unfold ltb; destruct (Rlt_dec a b); split; intros; try easy; lra.
Qed.

Lemma leb_true a b : leb a b = true <-> a <= b.
Proof. unfold leb; destruct (Rle_dec a b); split; intros; try easy. Qed.

Lemma leb_false a b : leb a b = false <-> b < a.
Proof.
  unfold leb; destruct (Rle_dec a b); split; intros; try easy; lra.
Qed.

Lemma fract_unit_interval (x : R) : 0 <= x < 1 -> fract x = x.
Proof.
  intros Hx. unfold fract.
  assert (H0 : 0%Z = Int_part x) by (apply Int_part_spec; simpl; lra).
  rewrite <- H0. simpl. lra.
Qed.

Lemma fract_range (x : R) : 0 <= fract x < 1.
Proof.
  unfold fract. destruct (base_fp x) as [Hge Hlt].
  unfold frac_part in Hge, Hlt. lra.
Qed.

Lemma wave_values (frequency t : R) :
  wave frequency t = 1 \/ wave frequency t = -1.
Proof.
  unfold wave. destruct (ltb (fract (t * frequency)) 0.5); [left | right]; lra.
Qed.

Lemma wave_first_half (frequency t : R) :
  0 <= t * frequency < 0.5 -> wave frequency t = 1.
Proof.
  intros Ht. unfold wave.
  rewrite fract_unit_interval by lra.
  replace (ltb (t * frequency) 0.5) with true; [lra |].
  symmetry. apply ltb_true. lra.
Qed.

Lemma wave_second_half (frequency t : R) :
  0.5 <= t * frequency < 1 -> wave frequency t = -1.
Proof.
  intros Ht. unfold wave.
  rewrite fract_unit_interval by lra.
  replace (ltb (t * frequency) 0.5) with false; [lra |].
  symmetry. apply ltb_false. lra.
Qed.

(** The wave jumps from [+1] to [-1] at the middle of its first period. *)
Lemma wave_not_continuous : ~ continuity_pt (wave 15) (1 / 30).
Proof.
  intros Hc.
  destruct (Hc 1 ltac:(lra)) as [alp [Halp Hlim]].
  set (delta := Rmin (alp / 2) (1 / 60)).
  assert (Hd : 0 < delta <= alp / 2 /\ delta <= 1 / 60).
  { unfold delta. split; [split |].
    - apply Rmin_glb_lt; lra.
    - apply Rmin_l.
    - apply Rmin_r. }
  specialize (Hlim (1 / 30 - delta)).
  simpl in Hlim. unfold Rdist, D_x, no_cond in Hlim.
  rewrite (wave_first_half 15 (1 / 30 - delta)) in Hlim by lra.
  rewrite (wave_second_half 15 (1 / 30)) in Hlim by lra.
  assert (Hlt : Rabs (1 - -1) < 1).
  { apply Hlim. split; [split; [exact I | lra] |].
    rewrite Rabs_left by lra. lra. }
  rewrite Rabs_right in Hlt by lra. lra.
Qed.

Lemma finalColor_as_list (u : Uniforms) (color : vec3) :
  finalColor u color = runEffects u (filter (enabled u) effectOrder) color.
Proof.
  unfold finalColor, runEffects, effectOrder. simpl.
  destruct (gtb (rainbowEffect u) 0.0), (gtb (pulseEffect u) 0.0),
    (gtb (glowEffect u) 0.0), (gtb (invertEffect u) 0.0); reflexivity.
Qed.

Lemma gtb_one_zero : gtb 1 0.0 = true.
Proof. apply ltb_true. lra. Qed.

Lemma gtb_zero_zero : gtb 0 0.0 = false.
Proof. apply ltb_false. lra. Qed.

Lemma vec3_eq (a b c a' b' c' : R) :
  a = a' -> b = b' -> c = c' -> Vec3 a b c = Vec3 a' b' c'.
Proof. intros -> -> ->. reflexivity. Qed.

Lemma vec2_eq (a b a' b' : R) : a = a' -> b = b' -> Vec2 a b = Vec2 a' b'.
Proof. intros -> ->. reflexivity. Qed.

(** [main] in one equation: the discard test on the squared length of the
    final position, then colour and opacity. *)
Lemma main_unfold (u : Uniforms) (vColor : vec4) (vPosition : vec2) :
  main u vColor vPosition =
  let A := dot2 (finalPosition u vPosition) (finalPosition u vPosition) in
  if gtb A 8.0 then None
  else Some (vec4_of (finalColor u (rgb vColor))
                     (exp (-0.5 * A) * alpha vColor)).
Proof. reflexivity. Qed.

Lemma finalPosition_withColorEffects (u : Uniforms) (r p g i : R) (v : vec2) :
  finalPosition (withColorEffects u r p g i) v = finalPosition u v.
Proof. reflexivity. Qed.

Lemma finalColor_glowInvert (c : vec3) :
  finalColor glowInvert c = applyInvertEffect (applyGlowEffect c).
Proof.
  unfold finalColor, glowInvert. simpl.
  rewrite gtb_one_zero, gtb_zero_zero. reflexivity.
Qed.

(** Unfold the vector operations down to their real components. *)
Ltac glsl :=
  unfold applyInvertEffect, applyGlowEffect, rgb, vec4_of, alpha, xy,
    sub3, add3, scale3, splat3, mix3, dot2, add2, scale2, scale2l, mul2;
  cbn [x2 y2 x3 y3 z3 x4 y4 z4 w4].

Lemma fract_shift (x : R) : fract (x + 1) = fract x.
Proof.
  unfold fract.
  assert (H : (Int_part x + 1)%Z = Int_part (x + 1)).
  { apply Int_part_spec. rewrite plus_IZR.
    destruct (base_Int_part x) as [Hle Hgt]. simpl. lra. }
  rewrite <- H, plus_IZR. simpl. lra.
Qed.

Lemma wave_periodic (t : R) : wave 15 (t + 1 / 15) = wave 15 t.
Proof.
  unfold wave.
  replace ((t + 1 / 15) * 15) with (t * 15 + 1) by lra.
  rewrite fract_shift. reflexivity.
Qed.

Lemma main_discard_iff (u : Uniforms) (c : vec4) (p : vec2) :
  main u c p = None <-> 8 < dot2 (finalPosition u p) (finalPosition u p).
Proof.
  rewrite main_unfold. cbv zeta. unfold gtb.
  destruct (ltb 8.0 (dot2 (finalPosition u p) (finalPosition u p))) eqn:E.
  - apply ltb_true in E. split; [lra | reflexivity].
  - apply ltb_false in E. split; [discriminate | lra].
Qed.

Lemma main_kept (u : Uniforms) (c : vec4) (p : vec2) :
  dot2 (finalPosition u p) (finalPosition u p) <= 8 ->
  main u c p =
  Some (vec4_of (finalColor u (rgb c))
          (exp (-0.5 * dot2 (finalPosition u p) (finalPosition u p))
           * alpha c)).
Proof.
  intros HA. rewrite main_unfold. cbv zeta. unfold gtb.
  replace (ltb 8.0 (dot2 (finalPosition u p) (finalPosition u p))) with false;
    [reflexivity |].
  symmetry. apply ltb_false. lra.
Qed.

(** ** The discard boundary and the Gaussian falloff *)

(** C4, as stated, fails at the boundary: a pixel whose squared local
    distance is exactly 8 is kept, with opacity [exp(-4)] times the base
    opacity. *)
Lemma discard_at_eight_counterexample :
  dot2 (Vec2 2 2) (Vec2 2 2) = 8 /\
  main initialUniforms (Vec4 1 1 1 1) (Vec2 2 2)
  = Some (Vec4 1 1 1 (exp (-0.5 * 8) * 1)).
Proof.
  assert (H8 : dot2 (Vec2 2 2) (Vec2 2 2) = 8) by (unfold dot2; simpl; lra).
  split; [exact H8 |].
  assert (Hp : finalPosition initialUniforms (Vec2 2 2) = Vec2 2 2).
  { unfold finalPosition. simpl. rewrite gtb_zero_zero. reflexivity. }
  rewrite main_kept; rewrite Hp, H8; [| lra].
  unfold finalColor. simpl. rewrite gtb_zero_zero. reflexivity.
Qed.

(** C4 (amended): with [p] the local coordinate after any positional jitter
    and [distSq = dot(p,p)], the pixel is discarded exactly when
    [distSq > 8]; a pixel at [distSq = 8] or [distSq = 7.999] is kept; a kept
    pixel has alpha [exp(-0.5 * distSq) * opacity]. *)
Theorem discard_boundary_exclusive (u : Uniforms) (c : vec4) (p : vec2) :
  let distSq := dot2 (finalPosition u p) (finalPosition u p) in
  (main u c p = None <-> 8 < distSq) /\
  (distSq = 8 -> main u c p <> None) /\
  (distSq = 7.999 -> main u c p <> None) /\
  (distSq <= 8 ->
   exists color,
     main u c p = Some (vec4_of color (exp (-0.5 * distSq) * alpha c))).
Proof.
  cbv zeta. split; [apply main_discard_iff |].
  split; [| split].
  - intros H8 HN. apply main_discard_iff in HN. lra.
  - intros H7 HN. apply main_discard_iff in HN. lra.
  - intros Hle. exists (finalColor u (rgb c)). apply main_kept. exact Hle.
Qed.

Lemma discard_boundary_exclusive_witness :
  dot2 (finalPosition initialUniforms (Vec2 2 2))
       (finalPosition initialUniforms (Vec2 2 2)) = 8 /\
  main initialUniforms (Vec4 1 1 1 1) (Vec2 2 2) <> None.
Proof.
  assert (H8 : dot2 (finalPosition initialUniforms (Vec2 2 2))
                    (finalPosition initialUniforms (Vec2 2 2)) = 8).
  { unfold finalPosition. simpl. rewrite gtb_zero_zero.
    unfold dot2. simpl. lra. }
  split; [exact H8 |].
  exact (proj1 (proj2 (discard_boundary_exclusive
                         initialUniforms (Vec4 1 1 1 1) (Vec2 2 2))) H8).
Defined.

(** ** The order of the colour effects *)

(** C8, as stated, fails on the numbers: the glow of the shader has the
    fixed gain 1.5, so glow then invert turns (1,0,0) into (-0.5,1,1) and
    not into (-1,1,1). *)
Lemma glow_gain_counterexample :
  exists out,
    main glowInvert (Vec4 1 0 0 1) (Vec2 0 0) = Some out /\
    rgb out = Vec3 (-0.5) 1 1 /\
    rgb out <> Vec3 (-1) 1 1.
Proof.
  assert (Hp : finalPosition glowInvert (Vec2 0 0) = Vec2 0 0).
  { unfold finalPosition, glowInvert. simpl. rewrite gtb_zero_zero.
    reflexivity. }
  eexists. split; [| split].
  - apply main_kept. rewrite Hp. unfold dot2. simpl. lra.
  - glsl. rewrite finalColor_glowInvert. glsl. apply vec3_eq; lra.
  - glsl. rewrite finalColor_glowInvert. glsl. intros H.
    apply (f_equal x3) in H. cbn [x3] in H. lra.
Qed.

(** C8 (amended): the enabled colour effects are applied in the fixed order
    rainbow, pulse, glow, invert, and the composition depends on the order:
    with the shader's fixed glow gain 1.5, glow then invert turns (1,0,0)
    into (-0.5,1,1), unclamped, while invert then glow gives (0,1.5,1.5).
    For a gain [g] the two orders give [(1 - g, 1, 1)] and [(0, g, g)]. *)
Theorem effect_chain_order (u : Uniforms) (color : vec3) :
  finalColor u color = runEffects u (filter (enabled u) effectOrder) color /\
  effectOrder = [Rainbow; Pulse; Glow; Invert] /\
  finalColor glowInvert (Vec3 1 0 0) = Vec3 (-0.5) 1 1 /\
  runEffects u [Glow; Invert] (Vec3 1 0 0) = Vec3 (-0.5) 1 1 /\
  runEffects u [Invert; Glow] (Vec3 1 0 0) = Vec3 0 1.5 1.5 /\
  runEffects u [Glow; Invert] (Vec3 1 0 0)
  <> runEffects u [Invert; Glow] (Vec3 1 0 0) /\
  (forall g : R,
      applyInvertEffect (scale3 (Vec3 1 0 0) g) = Vec3 (1 - g) 1 1 /\
      scale3 (applyInvertEffect (Vec3 1 0 0)) g = Vec3 0 g g).
Proof.
  split; [apply finalColor_as_list |].
  split; [reflexivity |].
  split; [rewrite finalColor_glowInvert; glsl; apply vec3_eq; lra |].
  unfold runEffects; cbn [fold_left applyEffect]; glsl.
  split; [apply vec3_eq; lra |].
  split; [apply vec3_eq; lra |].
  split; [intros H; apply (f_equal x3) in H; cbn [x3] in H; lra |].
  intros g. split; apply vec3_eq; lra.
Qed.

(** ** The positional jitter *)

Lemma finalPosition_on (u : Uniforms) (p : vec2) :
  0 < positionEffect u ->
  finalPosition u p
  = add2 p (scale2 (Vec2 (x3 (positionOffset u)) (y3 (positionOffset u)))
                   (wave 15 (positionTime u))).
Proof.
  intros Hon. unfold finalPosition.
  replace (gtb (positionEffect u) 0.0) with true
    by (symmetry; apply ltb_true; lra).
  unfold applyPositionEffect. cbv zeta.
  replace 15.0 with 15 by lra. reflexivity.
Qed.

(** C9, as stated, fails on the configurable frequency: the frequency is
    the constant 15 written in the shader text, which no uniform reaches.
    At time 1/60 a wave of frequency 30 would have turned to [-1]; here,
    whatever the uniforms hold, the jitter with offset (1,0) at that time
    sits at [+offset]. *)
Lemma jitter_frequency_counterexample :
  finalPosition jitterSixtieth (Vec2 0 0) = Vec2 1 0 /\
  ~ (exists u : Uniforms,
        0 < positionEffect u /\
        positionOffset u = Vec3 1 0 0 /\
        positionTime u = 1 / 60 /\
        finalPosition u (Vec2 0 0) = Vec2 (-1) 0).
Proof.
  assert (Hw : wave 15 (1 / 60) = 1) by (apply wave_first_half; lra).
  split.
  - rewrite finalPosition_on by (cbn [positionEffect jitterSixtieth]; lra).
    cbn [positionOffset positionTime jitterSixtieth]. rewrite Hw.
    glsl. apply vec2_eq; lra.
  - intros (u & Hon & Ho & Ht & Hp).
    rewrite (finalPosition_on u _ Hon), Ho, Ht, Hw in Hp.
    apply (f_equal x2) in Hp. revert Hp. glsl. lra.
Qed.

(** C9 (amended): the jitter adds the x and y of [positionOffset] times a
    wave of the fixed frequency 15 that is [+1] or [-1] at every time: [+1]
    while the fractional part of [15 * time] is below one half, [-1]
    otherwise, with period 1/15.  The wave takes both values and jumps at
    time 1/30, where it is not continuous.  [main] uses the perturbed
    coordinate when [positionEffect] is positive. *)
Theorem position_jitter_square_wave (u : Uniforms) (p : vec2) (t : R) :
  let o := Vec2 (x3 (positionOffset u)) (y3 (positionOffset u)) in
  applyPositionEffect u p t = add2 p (scale2 o (wave 15 t)) /\
  (wave 15 t = 1 \/ wave 15 t = -1) /\
  (wave 15 t = 1 <-> fract (t * 15) < 0.5) /\
  wave 15 (t + 1 / 15) = wave 15 t /\
  wave 15 0 = 1 /\ wave 15 (1 / 30) = -1 /\
  ~ continuity_pt (wave 15) (1 / 30) /\
  (0 < positionEffect u ->
   finalPosition u p = add2 p (scale2 o (wave 15 (positionTime u)))).
Proof.
  cbv zeta.
  assert (Hfreq : 15.0 = 15) by lra.
  split; [unfold applyPositionEffect; rewrite Hfreq; reflexivity |].
  split; [apply wave_values |].
  split.
  { unfold wave. destruct (ltb (fract (t * 15)) 0.5) eqn:E.
    - apply ltb_true in E. split; [intros _; exact E | intros _; lra].
    - apply ltb_false in E. split; [intros H1; lra | intros Hlt; lra]. }
  split; [apply wave_periodic |].
  split; [apply wave_first_half; lra |].
  split; [apply wave_second_half; lra |].
  split; [exact wave_not_continuous |].
  intros Hon. unfold finalPosition.
  replace (gtb (positionEffect u) 0.0) with true;
    [unfold applyPositionEffect; rewrite Hfreq; reflexivity |].
  symmetry. apply ltb_true. lra.
Qed.

Lemma position_jitter_square_wave_witness :
  0 < positionEffect jitterOn /\
  finalPosition jitterOn (Vec2 0 0)
  = add2 (Vec2 0 0) (scale2 (Vec2 1 2) (wave 15 0)).
Proof.
  assert (Hon : 0 < positionEffect jitterOn) by (cbn; lra).
  split; [exact Hon |].
  destruct (position_jitter_square_wave jitterOn (Vec2 0 0) 0)
    as (_ & _ & _ & _ & _ & _ & _ & H).
  exact (H Hon).
Defined.

(** ** The alpha channel *)

(** C10: for a pixel that is not discarded, whatever values the four
    colour-effect switches take, the emitted alpha is
    [exp(-0.5 * dot(p,p))] times the base opacity, [p] being the local
    coordinate after any jitter; the colour effects reach only the RGB
    components. *)
Theorem alpha_unchanged_by_color_effects
        (u : Uniforms) (c : vec4) (p : vec2) (r pl g i : R) :
  let distSq := dot2 (finalPosition u p) (finalPosition u p) in
  distSq <= 8 ->
  option_map alpha (main (withColorEffects u r pl g i) c p)
  = Some (exp (-0.5 * distSq) * alpha c) /\
  option_map alpha (main (withColorEffects u r pl g i) c p)
  = option_map alpha (main u c p).
Proof.
  cbv zeta. intros Hle.
  rewrite (main_kept u c p Hle).
  rewrite (main_kept (withColorEffects u r pl g i) c p)
    by (rewrite finalPosition_withColorEffects; exact Hle).
  rewrite finalPosition_withColorEffects.
  split; reflexivity.
Qed.

Lemma alpha_unchanged_by_color_effects_witness :
  option_map alpha
    (main (withColorEffects initialUniforms 1 1 1 1) (Vec4 1 0 0 1) (Vec2 1 1))
  = option_map alpha (main initialUniforms (Vec4 1 0 0 1) (Vec2 1 1)).
Proof.
  apply (alpha_unchanged_by_color_effects
           initialUniforms (Vec4 1 0 0 1) (Vec2 1 1) 1 1 1 1).
  unfold finalPosition. cbn [positionEffect initialUniforms].
  rewrite gtb_zero_zero. glsl. lra.
Defined.

(** * Properties of the vertex stage *)

Import Vertex.

(** Evaluate the matrix operations, innermost first, down to real
    arithmetic on the entries. *)
Ltac glsl_mat :=
  cbv [cov2Dm T W Vrk cov2Dv symmetric at3 column comp3
       mulm mulv transpose mat3_of mat3_of_mat4 add_at00 add_at11
       dot3 add3 scale3
       col0 col1 col2 mcol0 mcol1 mcol2 x3 y3 z3 x4 y4 z4 x2 y2].

Lemma mat3_eq (a b c a' b' c' : vec3) :
  a = a' -> b = b' -> c = c' -> Mat3 a b c = Mat3 a' b' c'.
Proof. intros -> -> ->. reflexivity. Qed.

(** The perspective Jacobian in closed form. *)
Lemma J_perspective (e : Env) :
  orthographicMode e <> 1%Z ->
  J e =
  mat3_of
    (x2 (focal e) / z3 (viewCenter e)) 0
      (- (x2 (focal e) * x3 (viewCenter e)) / (z3 (viewCenter e)) ^ 2)
    0 (y2 (focal e) / z3 (viewCenter e))
      (- (y2 (focal e) * y3 (viewCenter e)) / (z3 (viewCenter e)) ^ 2)
    0 0 0.
Proof.
  intros Hm. unfold J.
  destruct (Z.eqb_spec (orthographicMode e) 1) as [E | _]; [contradiction |].
  cbv zeta. unfold mat3_of.
  replace ((z3 (viewCenter e)) ^ 2)
    with (z3 (viewCenter e) * z3 (viewCenter e)) by ring.
  replace 1.0 with 1 by lra.
  apply mat3_eq; apply vec3_eq; unfold Rdiv; ring.
Qed.

Lemma J_orthographic (e : Env) :
  orthographicMode e = 1%Z ->
  J e = mat3_of (orthoZoom e) 0 0 0 (orthoZoom e) 0 0 0 0.
Proof.
  intros Hm. unfold J. rewrite Hm. cbn [Z.eqb Pos.eqb].
  unfold transpose, mat3_of. cbn [col0 col1 col2 x3 y3 z3].
  apply mat3_eq; apply vec3_eq; lra.
Qed.

(** Entry by entry: in GLSL's [m[column][row]] indexing the depth terms of
    the perspective [J] sit in row 2 of columns 0 and 1, and column 2 is
    zero. *)
Lemma J_perspective_entries (e : Env) :
  orthographicMode e <> 1%Z ->
  at3 (J e) 0 2 = - (x2 (focal e) * x3 (viewCenter e)) / (z3 (viewCenter e)) ^ 2
  /\ at3 (J e) 1 2
     = - (y2 (focal e) * y3 (viewCenter e)) / (z3 (viewCenter e)) ^ 2
  /\ at3 (J e) 2 0 = 0 /\ at3 (J e) 2 1 = 0 /\ at3 (J e) 2 2 = 0.
Proof.
  intros Hm. rewrite (J_perspective e Hm). repeat split.
Qed.

Lemma Vrk_symmetric (e : Env) : symmetric (Vrk e).
Proof. glsl_mat. repeat split. Qed.

(** Every symmetric matrix is the [Vrk] of the environment that carries
    its six independent entries. *)
Lemma Vrk_withVrk (e : Env) (m : mat3) : symmetric m -> Vrk (withVrk e m) = m.
Proof.
  destruct m as [[a0 a1 a2] [b0 b1 b2] [c0 c1 c2]].
  unfold symmetric, at3, column, comp3. cbn [col0 col1 col2 x3 y3 z3].
  intros (H01 & H02 & H12). subst. reflexivity.
Qed.

(** Each kept entry of the projected covariance is the quadratic form
    [t_i . (Vrk t_j)] of two columns of [T]. *)
Lemma cov2Dm_quadratic_form (e : Env) (i j : nat) :
  at3 (cov2Dm e) j i = dot3 (column (T e) i) (mulv (Vrk e) (column (T e) j)).
Proof.
  unfold cov2Dm. generalize (T e) as t, (Vrk e) as v.
  intros [[a0 a1 a2] [b0 b1 b2] [c0 c1 c2]]
         [[p0 p1 p2] [q0 q1 q2] [r0 r1 r2]].
  destruct i as [| [| i]], j as [| [| j]]; glsl_mat; ring.
Qed.

Lemma cov2Dm_symmetric (e : Env) : symmetric (cov2Dm e).
Proof.
  unfold symmetric. rewrite !cov2Dm_quadratic_form.
  generalize (T e) as t. intros [[a0 a1 a2] [b0 b1 b2] [c0 c1 c2]].
  destruct e as [[m11 m12 m13] [m22 m23 m33] ? ? ? ? ? ? ? ? ? ? ? ? ? ?].
  glsl_mat. repeat split; ring.
Qed.

(** The third column of [J] is zero in both modes, so the third row and
    column of the projected covariance vanish. *)
Lemma cov2Dm_third (e : Env) :
  col2 (cov2Dm e) = Vec3 0 0 0 /\ z3 (col0 (cov2Dm e)) = 0
  /\ z3 (col1 (cov2Dm e)) = 0.
Proof.
  assert (HJ : col2 (J e) = Vec3 0 0 0).
  { unfold J. destruct (Z.eqb (orthographicMode e) 1); cbv zeta;
      unfold transpose, mat3_of; cbn [col0 col1 col2 x3 y3 z3];
      apply vec3_eq; lra. }
  assert (HT : col2 (T e) = Vec3 0 0 0).
  { unfold T, mulm. cbn [col2]. rewrite HJ.
    unfold mulv, add3, scale3. cbn [x3 y3 z3]. apply vec3_eq; ring. }
  unfold cov2Dm. revert HT. generalize (T e) as t, (Vrk e) as v.
  intros [[a0 a1 a2] [b0 b1 b2] [c0 c1 c2]]
         [[p0 p1 p2] [q0 q1 q2] [r0 r1 r2]].
  cbn [col2]. intros HT. injection HT as -> -> ->.
  glsl_mat. repeat split; [apply vec3_eq |..]; ring.
Qed.

(** ** The projected covariance *)

(** C1: for every symmetric matrix taken as [Vrk], [J] is the matrix the
    shader constructs from the listed triples (GLSL fills a [mat3] column
    by column, so each triple is one column of [J]) in perspective mode and
    [diag(orthoZoom, orthoZoom, 0)] in orthographic mode;
    [T = transpose(mat3(modelView)) * J]; the projected covariance is
    [transpose(T) * Vrk * T]; it is symmetric, its third row and column
    vanish, and the three scalars kept are the entries [0][0], [0][1] and
    [1][1] of its upper-left block, each a quadratic form of [Vrk] in the
    first two columns of [T]. *)
Theorem covariance_projection (e0 : Env) (m : mat3) :
  symmetric m ->
  let e := withVrk e0 m in
  let t0 := col0 (T e) in
  let t1 := col1 (T e) in
  Vrk e = m /\
  J e =
  (if (orthographicMode e =? 1)%Z
   then mat3_of (orthoZoom e) 0 0 0 (orthoZoom e) 0 0 0 0
   else
     mat3_of
       (x2 (focal e) / z3 (viewCenter e)) 0
         (- (x2 (focal e) * x3 (viewCenter e)) / (z3 (viewCenter e)) ^ 2)
       0 (y2 (focal e) / z3 (viewCenter e))
         (- (y2 (focal e) * y3 (viewCenter e)) / (z3 (viewCenter e)) ^ 2)
       0 0 0) /\
  T e = mulm (transpose (mat3_of_mat4 (transformModelViewMatrix e))) (J e) /\
  cov2Dm e = mulm (mulm (transpose (T e)) m) (T e) /\
  symmetric (cov2Dm e) /\
  col2 (cov2Dm e) = Vec3 0 0 0 /\
  z3 (col0 (cov2Dm e)) = 0 /\ z3 (col1 (cov2Dm e)) = 0 /\
  cov2Dv (cov2Dm e)
  = Vec3 (at3 (cov2Dm e) 0 0) (at3 (cov2Dm e) 0 1) (at3 (cov2Dm e) 1 1) /\
  cov2Dv (cov2Dm e)
  = Vec3 (dot3 t0 (mulv m t0)) (dot3 t1 (mulv m t0)) (dot3 t1 (mulv m t1)).
Proof.
  intros Hsym e t0 t1.
  assert (HV : Vrk e = m) by (apply Vrk_withVrk; exact Hsym).
  split; [exact HV |].
  split.
  { destruct (Z.eqb_spec (orthographicMode e) 1) as [E | E].
    - apply J_orthographic; exact E.
    - apply J_perspective; exact E. }
  split; [reflexivity |].
  split; [unfold cov2Dm; rewrite HV; reflexivity |].
  split; [apply cov2Dm_symmetric |].
  destruct (cov2Dm_third e) as (H2 & H02 & H12).
  split; [exact H2 |]. split; [exact H02 |]. split; [exact H12 |].
  split; [reflexivity |].
  unfold cov2Dv. rewrite !cov2Dm_quadratic_form. rewrite HV. reflexivity.
Qed.

Lemma covariance_projection_witness :
  symmetric identity3 /\
  cov2Dm (withVrk unitSplat identity3)
  = mulm (mulm (transpose (T (withVrk unitSplat identity3))) identity3)
         (T (withVrk unitSplat identity3)).
Proof.
  assert (Hs : symmetric identity3) by (repeat split; reflexivity).
  split; [exact Hs |].
  destruct (covariance_projection unitSplat identity3 Hs)
    as (_ & _ & _ & H & _).
  exact H.
Defined.

Lemma mulm_identity_l (m : mat3) : mulm identity3 m = m.
Proof.
  destruct m as [[a0 a1 a2] [b0 b1 b2] [c0 c1 c2]].
  unfold identity3. glsl_mat. apply mat3_eq; apply vec3_eq; ring.
Qed.

(** Under the identity model view, [T] is [J]. *)
Lemma identity_view_cov2Dm (e : Env) :
  transformModelViewMatrix e = identityModelView ->
  cov2Dm e = mulm (mulm (transpose (J e)) (Vrk e)) (J e).
Proof.
  intros Hmv. unfold cov2Dm, T.
  replace (W e) with identity3.
  - rewrite mulm_identity_l. reflexivity.
  - unfold W. rewrite Hmv. reflexivity.
Qed.

(** The scenario of the specification: the unit covariance projects to the
    isotropic matrix with diagonal [(1000 / 5)^2]. *)
Example unitSplat_cov2Dv : cov2Dv (cov2Dm unitSplat) = Vec3 40000 0 40000.
Proof.
  unfold unitSplat. rewrite identity_view_cov2Dm by reflexivity.
  rewrite J_perspective by (cbn [orthographicMode sampleSplat]; discriminate).
  unfold Vrk.
  cbn [sampleSplat cov3D_M11_M12_M13 cov3D_M22_M23_M33 viewCenter focal].
  glsl_mat. apply vec3_eq; field.
Qed.

(** A splat off the optical axis shows where the depth terms of [J] act:
    with unit focal lengths and view centre [(1, 0, 1)] the unit covariance
    projects to [diag(2, 1)], the variance along x being
    [(focal.x / z)^2 + (focal.x * x / z^2)^2]. *)
Example offAxisSplat_cov2Dv : cov2Dv (cov2Dm offAxisSplat) = Vec3 2 0 1.
Proof.
  rewrite identity_view_cov2Dm by reflexivity.
  rewrite J_perspective by (cbn [orthographicMode offAxisSplat]; discriminate).
  unfold Vrk.
  cbn [offAxisSplat cov3D_M11_M12_M13 cov3D_M22_M23_M33 viewCenter focal].
  glsl_mat. apply vec3_eq; field.
Qed.

(** The same nine scalars filled row by row would drop the depth terms
    from the kept block. *)
Example offAxisSplat_row_filled :
  cov2Dv (mulm (mulm (transpose (transpose (J offAxisSplat)))
                     (Vrk offAxisSplat))
               (transpose (J offAxisSplat)))
  = Vec3 1 0 1.
Proof.
  rewrite J_perspective by (cbn [orthographicMode offAxisSplat]; discriminate).
  unfold Vrk.
  cbn [offAxisSplat cov3D_M11_M12_M13 cov3D_M22_M23_M33 viewCenter focal].
  glsl_mat. apply vec3_eq; field.
Qed.

(** ** The eigenvalues *)

Lemma term2_positive (x : R) : 0 < sqrt (Rmax 0.1 x).
Proof.
  apply sqrt_lt_R0. apply Rlt_le_trans with 0.1; [lra | apply Rmax_l].
Qed.

Lemma eigenSolve_closed (a b d : R) :
  eigenSolve (Vec3 a b d)
  = ((a + d) / 2 + sqrt (Rmax 0.1 (((a + d) / 2) ^ 2 - (a * d - b ^ 2))),
     (a + d) / 2 - sqrt (Rmax 0.1 (((a + d) / 2) ^ 2 - (a * d - b ^ 2)))).
Proof.
  unfold eigenSolve. cbn [x3 y3 z3].
  replace (0.5 * (a + d)) with ((a + d) / 2) by lra.
  replace ((a + d) / 2 * ((a + d) / 2) - (a * d - b * b))
    with (((a + d) / 2) ^ 2 - (a * d - b ^ 2)) by ring.
  reflexivity.
Qed.

Lemma sqrt_lower (y x : R) : 0 <= y -> y * y <= x -> y <= sqrt x.
Proof.
  intros Hy Hx. rewrite <- (sqrt_square y Hy).
  apply sqrt_le_1_alt. exact Hx.
Qed.

Lemma sqrt_exact (y x : R) : 0 <= y -> y * y = x -> sqrt x = y.
Proof. intros Hy <-. apply sqrt_square. exact Hy. Qed.

(** The two eigenvalues of the solve are never equal: [term] is at least
    [sqrt 0.1]. *)
Lemma eigenSolve_gap (cov : vec3) :
  snd (eigenSolve cov) + 2 * sqrt 0.1 <= fst (eigenSolve cov).
Proof.
  destruct cov as [a b d]. rewrite eigenSolve_closed. cbn [fst snd].
  assert (H : sqrt 0.1
              <= sqrt (Rmax 0.1 (((a + d) / 2) ^ 2 - (a * d - b ^ 2)))).
  { apply sqrt_le_1_alt. apply Rmax_l. }
  lra.
Qed.

(** C2: the eigen-solve of the symmetric matrix with entries [a], [b], [d]
    returns [trace/2 + term] and [trace/2 - term] for [trace = a + d] and
    [term = sqrt(max(0.1, (trace/2)^2 - (a d - b^2)))], and the first is at
    least the second. *)
Theorem eigen_solve_ordered (a b d : R) :
  let trace := a + d in
  let term := sqrt (Rmax 0.1 ((trace / 2) ^ 2 - (a * d - b ^ 2))) in
  eigenSolve (Vec3 a b d) = (trace / 2 + term, trace / 2 - term) /\
  fst (eigenSolve (Vec3 a b d)) >= snd (eigenSolve (Vec3 a b d)).
Proof.
  cbv zeta. split; [apply eigenSolve_closed |].
  rewrite eigenSolve_closed. cbn [fst snd].
  pose proof (term2_positive (((a + d) / 2) ^ 2 - (a * d - b ^ 2))). lra.
Qed.

(** ** The basis vectors *)

Lemma parseInt_integer (n : Z) : JS.parseInt (inject_Z n) = n.
Proof. unfold JS.parseInt, inject_Z. cbn [Qnum Qden]. apply Z.quot_1_r. Qed.

Lemma intLiteral_integer (n : Z) :
  JS.intLiteral (inject_Z n) = Q2R (inject_Z n).
Proof.
  unfold JS.intLiteral. rewrite parseInt_integer.
  unfold Q2R, inject_Z. cbn [Qnum Qden]. lra.
Qed.

Lemma rotated_orthogonal (v : vec2) : dot2 v (Vec2 (y2 v) (- x2 v)) = 0.
Proof. glsl. ring. Qed.

Lemma basis_dot (m : JS.number) (s : R) (cov : vec3) (l1 l2 : R) :
  dot2 (basisVector1 (basis m s cov l1 l2))
       (basisVector2 (basis m s cov l1 l2)) = 0.
Proof. unfold basis. cbn [basisVector1 basisVector2]. glsl. ring. Qed.

Lemma sqrt8_bounds : 2.5 <= sqrt8.
Proof. unfold sqrt8. apply sqrt_lower; lra. Qed.

Lemma normalize2_unit (v : vec2) :
  v <> Vec2 0 0 -> dot2 (normalize2 v) (normalize2 v) = 1.
Proof.
  destruct v as [x y]. intros Hv.
  assert (Hpos : 0 < x * x + y * y).
  { destruct (Req_dec x 0) as [-> | Hx];
      [destruct (Req_dec y 0) as [-> | Hy]; [contradiction | nra] | nra]. }
  unfold normalize2, length2. glsl.
  pose proof (sqrt_lt_R0 _ Hpos) as Hl.
  pose proof (sqrt_sqrt (x * x + y * y) (Rlt_le _ _ Hpos)) as Hsq.
  set (l := sqrt (x * x + y * y)) in *.
  replace (x / l * (x / l) + y / l * (y / l))
    with ((x * x + y * y) / (l * l)) by (field; lra).
  rewrite Hsq. field. lra.
Qed.

Lemma length2_scaled (v : vec2) (s c : R) :
  dot2 v v = 1 -> 0 <= c ->
  length2 (scale2 (scale2 v s) c) = Rabs s * c.
Proof.
  intros Hv Hc. destruct v as [x y]. unfold length2. revert Hv. glsl.
  intros Hv.
  replace (x * s * c * (x * s * c) + y * s * c * (y * s * c))
    with (Rsqr (s * c)) by (unfold Rsqr; nra).
  rewrite sqrt_Rsqr_abs, Rabs_mult, (Rabs_right c) by lra. reflexivity.
Qed.

Lemma clamp_range (l m : R) :
  0 <= m -> 0 <= Rmin (sqrt8 * sqrt l) m <= m.
Proof.
  intros Hm. split; [| apply Rmin_r].
  apply Rmin_glb; [| exact Hm].
  apply Rmult_le_pos; [unfold sqrt8 |]; apply sqrt_pos.
Qed.

Lemma rotated_unit (v : vec2) :
  dot2 v v = 1 -> dot2 (Vec2 (y2 v) (- x2 v)) (Vec2 (y2 v) (- x2 v)) = 1.
Proof. intros H. rewrite <- H. glsl. ring. Qed.

(** The lengths of the two basis vectors, when [normalize] has a vector to
    work on and the clamp is not negative. *)
Lemma basis_lengths (mx : JS.number) (s : R) (cov : vec3) (l1 l2 : R) :
  Vec2 (y3 cov) (l1 - x3 cov) <> Vec2 0 0 ->
  0 <= JS.intLiteral mx ->
  length2 (basisVector1 (basis mx s cov l1 l2))
  = Rabs s * Rmin (sqrt8 * sqrt l1) (JS.intLiteral mx) /\
  length2 (basisVector2 (basis mx s cov l1 l2))
  = Rabs s * Rmin (sqrt8 * sqrt l2) (JS.intLiteral mx).
Proof.
  intros Hv Hm.
  pose proof (normalize2_unit _ Hv) as Hu.
  pose proof (rotated_unit _ Hu) as Hu2.
  pose proof (clamp_range l1 _ Hm) as H1.
  pose proof (clamp_range l2 _ Hm) as H2.
  unfold basis. cbn [basisVector1 basisVector2].
  rewrite (length2_scaled _ s _ Hu (proj1 H1)).
  rewrite (length2_scaled _ s _ Hu2 (proj1 H2)).
  split; reflexivity.
Qed.

(** [parseInt] on a rational is truncation toward zero: the clamp differs
    from the number by less than one, on the side of zero. *)
Lemma parseInt_truncates (m : JS.number) :
  Rabs (Q2R m - IZR (JS.parseInt m)) < 1 /\
  0 <= (Q2R m - IZR (JS.parseInt m)) * Q2R m.
Proof.
  destruct m as [p q]. unfold JS.parseInt, Q2R. cbn [Qnum Qden].
  assert (Hq : 0 < IZR (Zpos q)) by (apply IZR_lt; reflexivity).
  pose proof (Z.quot_rem' p (Zpos q)) as Hdiv.
  assert (Hd : IZR p / IZR (Zpos q) - IZR (Z.quot p (Zpos q))
               = IZR (Z.rem p (Zpos q)) / IZR (Zpos q)).
  { rewrite Hdiv at 1. rewrite plus_IZR, mult_IZR. field. lra. }
  unfold Rdiv in Hd. rewrite Hd. split.
  - assert (Hb : (Z.abs (Z.rem p (Zpos q)) < Z.abs (Zpos q))%Z)
      by (apply Z.rem_bound_abs; discriminate).
    apply IZR_lt in Hb. rewrite !abs_IZR in Hb.
    rewrite Rabs_mult, (Rabs_right (/ IZR (Zpos q)))
      by (left; apply Rinv_0_lt_compat; exact Hq).
    rewrite (Rabs_right (IZR (Zpos q))) in Hb by lra.
    apply Rmult_lt_reg_r with (IZR (Zpos q)); [exact Hq |].
    rewrite Rmult_assoc, Rinv_l by lra. lra.
  - assert (Hs : (0 <= Z.rem p (Zpos q) * p)%Z)
      by (apply Z.rem_sign_mul; discriminate).
    apply IZR_le in Hs. rewrite mult_IZR in Hs.
    pose proof (Rinv_0_lt_compat _ Hq) as Hi.
    replace (IZR (Z.rem p (Zpos q)) * / IZR (Zpos q)
             * (IZR p * / IZR (Zpos q)))
      with (IZR (Z.rem p (Zpos q)) * IZR p
            * (/ IZR (Zpos q) * / IZR (Zpos q))) by ring.
    apply Rmult_le_pos; [exact Hs | nra].
Qed.

Lemma intLiteral_whole (m : JS.number) :
  Qden m = 1%positive -> JS.intLiteral m = Q2R m.
Proof.
  destruct m as [p q]. cbn [Qden]. intros ->.
  unfold JS.intLiteral, JS.parseInt, Q2R. cbn [Qnum Qden].
  rewrite Z.quot_1_r. lra.
Qed.

(** C3, as stated, fails when [maxScreenSpaceSplatSize] has a fraction: the
    shader text receives [parseInt(maxScreenSpaceSplatSize)].  For the
    covariance entries [(a, b, d) = (1, 0, 5)], whose eigenvalues are 5 and
    1, unit [splatScale] and a maximum of 2.5, the first basis vector is
    [(0, 2)] where the claimed formula gives [(0, 2.5)]. *)
Lemma clamp_fraction_counterexample :
  eigenSolve (Vec3 1 0 5) = (5, 1) /\
  basisVector1 (basis (5 # 2) 1 (Vec3 1 0 5) 5 1) = Vec2 0 2 /\
  scale2 (scale2 (eigenVector1 (basis (5 # 2) 1 (Vec3 1 0 5) 5 1)) 1)
         (Rmin (sqrt 8 * sqrt 5) (Q2R (5 # 2))) = Vec2 0 2.5 /\
  Vec2 0 2 <> Vec2 0 2.5.
Proof.
  assert (Hlen : length2 (Vec2 0 (5 - 1)) = 4).
  { unfold length2. glsl. apply sqrt_exact; lra. }
  assert (H5 : 2 <= sqrt 5) by (apply sqrt_lower; lra).
  pose proof sqrt8_bounds as H8. unfold sqrt8 in H8.
  assert (Hprod : 5 <= sqrt 8 * sqrt 5) by nra.
  split; [| split; [| split]].
  - rewrite eigenSolve_closed.
    replace (Rmax 0.1 (((1 + 5) / 2) ^ 2 - (1 * 5 - 0 ^ 2))) with 4
      by (rewrite Rmax_right; lra).
    rewrite (sqrt_exact 2 4) by lra. f_equal; lra.
  - unfold basis. cbn [basisVector1 x3 y3]. unfold normalize2.
    rewrite Hlen. unfold sqrt8, JS.intLiteral.
    change (JS.parseInt (5 # 2)) with 2%Z. glsl.
    rewrite Rmin_right by lra. apply vec2_eq; lra.
  - unfold basis. cbn [eigenVector1 x3 y3]. unfold normalize2.
    rewrite Hlen. glsl.
    replace (Q2R (5 # 2)) with 2.5 by (unfold Q2R; cbn [Qnum Qden]; lra).
    rewrite Rmin_right by lra. apply vec2_eq; lra.
  - intros H. apply (f_equal y2) in H. cbn [y2] in H. lra.
Qed.

(** C3 (amended): for a [maxScreenSpaceSplatSize] that JavaScript prints
    in plain decimal notation and a non-zero vector [(b, eigenValue1 - a)],
    [eigenVector1 = normalize(b, eigenValue1 - a)] is a unit vector,
    [eigenVector2] is [eigenVector1] turned by a quarter turn, and
    [basisVector_i = eigenVector_i * splatScale *
    min(sqrt8 * sqrt(eigenValue_i), parseInt(maxScreenSpaceSplatSize))]:
    the clamp is [maxScreenSpaceSplatSize] with its fraction dropped, less
    than one away from it on the side of zero, and
    [maxScreenSpaceSplatSize] itself when that is an integer; the two
    basis vectors are orthogonal. *)
Theorem basis_vectors_orthogonal
        (m : JS.number) (s : R) (cov : vec3) (l1 l2 : R) :
  JS.plainDecimal m = true ->
  Vec2 (y3 cov) (l1 - x3 cov) <> Vec2 0 0 ->
  let B := basis m s cov l1 l2 in
  let clamp := IZR (JS.parseInt m) in
  eigenVector1 B = normalize2 (Vec2 (y3 cov) (l1 - x3 cov)) /\
  dot2 (eigenVector1 B) (eigenVector1 B) = 1 /\
  eigenVector2 B = Vec2 (y2 (eigenVector1 B)) (- x2 (eigenVector1 B)) /\
  dot2 (eigenVector1 B) (eigenVector2 B) = 0 /\
  dot2 (eigenVector2 B) (eigenVector2 B) = 1 /\
  basisVector1 B
  = scale2 (scale2 (eigenVector1 B) s) (Rmin (sqrt 8 * sqrt l1) clamp) /\
  basisVector2 B
  = scale2 (scale2 (eigenVector2 B) s) (Rmin (sqrt 8 * sqrt l2) clamp) /\
  dot2 (basisVector1 B) (basisVector2 B) = 0 /\
  Rabs (Q2R m - clamp) < 1 /\
  0 <= (Q2R m - clamp) * Q2R m /\
  (Qden m = 1%positive -> clamp = Q2R m).
Proof.
  intros _ Hv. cbv zeta.
  pose proof (normalize2_unit _ Hv) as Hu.
  split; [reflexivity |].
  split; [exact Hu |].
  split; [reflexivity |].
  split; [apply rotated_orthogonal |].
  split; [exact (rotated_unit _ Hu) |].
  split; [reflexivity |]. split; [reflexivity |].
  split; [apply basis_dot |].
  destruct (parseInt_truncates m) as [Ht Hz].
  split; [exact Ht |]. split; [exact Hz |].
  apply intLiteral_whole.
Qed.

Lemma basis_vectors_orthogonal_witness :
  dot2 (basisVector1 (basis (5 # 2) 1 (Vec3 1 0 5) 5 1))
       (basisVector2 (basis (5 # 2) 1 (Vec3 1 0 5) 5 1)) = 0 /\
  Rabs (Q2R (5 # 2) - IZR (JS.parseInt (5 # 2))) < 1.
Proof.
  assert (Hr : JS.plainDecimal (5 # 2) = true) by reflexivity.
  assert (Hv : Vec2 (y3 (Vec3 1 0 5)) (5 - x3 (Vec3 1 0 5)) <> Vec2 0 0).
  { cbn [x3 y3]. intros H. apply (f_equal y2) in H. cbn [y2] in H. lra. }
  destruct (basis_vectors_orthogonal (5 # 2) 1 (Vec3 1 0 5) 5 1 Hr Hv)
    as (_ & _ & _ & _ & _ & _ & _ & Hdot & Ht & _).
  split; [exact Hdot | exact Ht].
Defined.

Import CovarianceFetch.

(** ** Positive semi-definite covariances *)

Lemma quadratic_nonneg_discriminant (a b d : R) :
  (forall l : R, 0 <= a + 2 * l * b + l * l * d) -> 0 <= d -> b * b <= a * d.
Proof.
  intros Hq Hd. destruct (Req_dec d 0) as [Hd0 | Hd0].
  - subst d. destruct (Req_dec b 0) as [Hb0 | Hb0]; [subst b; lra |].
    specialize (Hq (- (a + 1) / (2 * b))).
    replace (a + 2 * (- (a + 1) / (2 * b)) * b
             + - (a + 1) / (2 * b) * (- (a + 1) / (2 * b)) * 0)
      with (-1) in Hq by (field; exact Hb0).
    lra.
  - specialize (Hq (- b / d)).
    replace (a + 2 * (- b / d) * b + - b / d * (- b / d) * d)
      with ((a * d - b * b) / d) in Hq by (field; exact Hd0).
    assert (Hpos : 0 < d) by lra.
    assert (Hm : (a * d - b * b) / d * d = a * d - b * b)
      by (field; exact Hd0).
    nra.
Qed.

(** The Gram matrix of two vectors under a symmetric positive
    semi-definite form is positive semi-definite. *)
Lemma psd_gram (v : mat3) (t0 t1 : vec3) :
  symmetric v -> psd v ->
  0 <= dot3 t0 (mulv v t0) /\
  0 <= dot3 t1 (mulv v t1) /\
  dot3 t1 (mulv v t0) * dot3 t1 (mulv v t0)
  <= dot3 t0 (mulv v t0) * dot3 t1 (mulv v t1).
Proof.
  intros Hsym Hpsd.
  pose proof (Hpsd t0) as H0. pose proof (Hpsd t1) as H1.
  split; [exact H0 |]. split; [exact H1 |].
  apply quadratic_nonneg_discriminant; [| exact H1].
  intros l.
  pose proof (Hpsd (add3 t0 (scale3 t1 l))) as Hl.
  destruct v as [[a0 a1 a2] [b0 b1 b2] [c0 c1 c2]].
  destruct t0 as [x0 y0 z0], t1 as [x1 y1 z1].
  unfold symmetric, at3, column, comp3 in Hsym.
  cbn [col0 col1 col2 x3 y3 z3] in Hsym.
  destruct Hsym as (H01 & H02 & H12). subst a1 a2 b2.
  revert Hl. glsl_mat. intros Hl.
  match goal with
  | |- 0 <= ?rhs =>
      match type of Hl with
      | 0 <= ?lhs => replace rhs with lhs by ring
      end
  end.
  exact Hl.
Qed.

Lemma cov2Dm_psd (e : Env) :
  psd (Vrk e) ->
  0 <= at3 (cov2Dm e) 0 0 /\
  0 <= at3 (cov2Dm e) 1 1 /\
  at3 (cov2Dm e) 0 1 * at3 (cov2Dm e) 0 1
  <= at3 (cov2Dm e) 0 0 * at3 (cov2Dm e) 1 1.
Proof.
  intros Hpsd. rewrite !cov2Dm_quadratic_form.
  apply psd_gram; [apply Vrk_symmetric | exact Hpsd].
Qed.

(** ** Dilation, antialiasing and the early returns *)

Lemma dilate_entries (m : mat3) (k : R) :
  at3 (add_at11 (add_at00 m k) k) 0 0 = at3 m 0 0 + k /\
  at3 (add_at11 (add_at00 m k) k) 1 1 = at3 m 1 1 + k /\
  at3 (add_at11 (add_at00 m k) k) 0 1 = at3 m 0 1 /\
  at3 (add_at11 (add_at00 m k) k) 1 0 = at3 m 1 0.
Proof. repeat split. Qed.

Lemma dilate_false (k minA : R) (m : mat3) (c : vec4) :
  dilate false k minA m c = Some (add_at11 (add_at00 m k) k, c).
Proof. reflexivity. Qed.

Lemma dilate_true (k minA : R) (m : mat3) (c : vec4) :
  dilate true k minA m c =
  let detOrig := at3 m 0 0 * at3 m 1 1 - at3 m 0 1 * at3 m 0 1 in
  let detBlur :=
    (at3 m 0 0 + k) * (at3 m 1 1 + k) - at3 m 0 1 * at3 m 0 1 in
  let a := alpha c * sqrt (Rmax (detOrig / detBlur) 0) in
  if ltb a minA then None
  else Some (add_at11 (add_at00 m k) k, Vec4 (x4 c) (y4 c) (z4 c) a).
Proof.
  unfold dilate. cbv zeta.
  destruct (dilate_entries m k) as (-> & -> & -> & _).
  unfold mul_alpha, alpha. cbn [w4].
  replace 0.0 with 0 by lra. reflexivity.
Qed.

(** The projection after the dilation: the test on the second eigenvalue,
    then the quad. *)
Lemma projection_after_dilation
      (aa eo : bool) (mx kq : JS.number) (e : Env) (cov' : mat3) (c' : vec4) :
  dilate aa (JS.literal kq) (minAlpha e) (cov2Dm e) (vColor e)
  = Some (cov', c') ->
  buildVertexShaderProjection aa eo mx kq e =
  if leb (snd (eigenValues (pointCloudModeEnabled e) (cov2Dv cov'))) 0.0
  then None
  else Some (emit eo e c'
               (basis mx (splatScale e) (cov2Dv cov')
                  (fst (eigenValues (pointCloudModeEnabled e) (cov2Dv cov')))
                  (snd (eigenValues (pointCloudModeEnabled e)
                          (cov2Dv cov'))))).
Proof.
  intros Hd. unfold buildVertexShaderProjection. rewrite Hd.
  destruct (eigenValues (pointCloudModeEnabled e) (cov2Dv cov')) as [l1 l2].
  reflexivity.
Qed.

Lemma eigenValues_point_cloud (cov : vec3) : eigenValues 1 cov = (0.2, 0.2).
Proof.
  unfold eigenValues. destruct (eigenSolve cov) as [l1 l2]. reflexivity.
Qed.

Lemma eigenValues_ellipse (pc : Z) (cov : vec3) :
  pc <> 1%Z -> eigenValues pc cov = eigenSolve cov.
Proof.
  intros Hpc. unfold eigenValues. destruct (eigenSolve cov) as [l1 l2].
  destruct (Z.eqb_spec pc 1) as [E | _]; [contradiction | reflexivity].
Qed.

Lemma dilated_cov2Dv (m : mat3) (k : R) :
  cov2Dv (add_at11 (add_at00 m k) k)
  = Vec3 (at3 m 0 0 + k) (at3 m 0 1) (at3 m 1 1 + k).
Proof. reflexivity. Qed.

Lemma cov2Dv_entries (m : mat3) :
  at3 m 0 0 = x3 (cov2Dv m) /\ at3 m 0 1 = y3 (cov2Dv m)
  /\ at3 m 1 1 = z3 (cov2Dv m).
Proof. repeat split. Qed.

(** The antialiased step goes on when the compensated alpha reaches
    [minAlpha]. *)
Lemma dilate_true_passes (k minA : R) (m : mat3) (c : vec4) :
  minA <= alpha c
          * sqrt (Rmax ((at3 m 0 0 * at3 m 1 1 - at3 m 0 1 * at3 m 0 1)
                        / ((at3 m 0 0 + k) * (at3 m 1 1 + k)
                           - at3 m 0 1 * at3 m 0 1)) 0) ->
  dilate true k minA m c
  = Some (add_at11 (add_at00 m k) k,
          Vec4 (x4 c) (y4 c) (z4 c)
               (alpha c
                * sqrt (Rmax ((at3 m 0 0 * at3 m 1 1
                               - at3 m 0 1 * at3 m 0 1)
                              / ((at3 m 0 0 + k) * (at3 m 1 1 + k)
                                 - at3 m 0 1 * at3 m 0 1)) 0))).
Proof.
  intros Hge. rewrite dilate_true. cbv zeta.
  match goal with |- context [ltb ?x ?y] =>
    replace (ltb x y) with false by (symmetry; apply ltb_false; exact Hge)
  end.
  reflexivity.
Qed.

(** The colour a quad carries is the colour the dilation step passed on,
    with its alpha times [splatOpacityFromScene] when the optional effects
    are compiled in. *)
Lemma projection_vColor
      (aa eo : bool) (mx kq : JS.number) (e : Env)
      (m1 : mat3) (c1 : vec4) (out : Out) :
  dilate aa (JS.literal kq) (minAlpha e) (cov2Dm e) (vColor e)
  = Some (m1, c1) ->
  buildVertexShaderProjection aa eo mx kq e = Some out ->
  out_vColor out
  = (if eo then mul_alpha c1 (splatOpacityFromScene e) else c1).
Proof.
  intros Hd. rewrite (projection_after_dilation aa eo mx kq e m1 c1 Hd).
  match goal with |- context [leb ?x ?y] => destruct (leb x y) end;
    [discriminate |].
  intros H. injection H as <-. destruct eo; reflexivity.
Qed.

(** C5: with [antialiased] set the projection takes the determinant of the
    2x2 block before the dilation ([detOrig]) and after [kernel2DSize] is
    added to both diagonal entries ([detBlur]), multiplies the alpha by
    [sqrt(max(detOrig / detBlur, 0))] and returns without a quad exactly
    when that alpha is below [minAlpha]; otherwise it goes on to the
    eigenvalues and the quad with the dilated covariance and the
    compensated alpha.  Without [antialiased] the same dilation is
    applied, the alpha is unchanged and this step never returns. *)
Theorem dilation_and_antialiasing
        (eo : bool) (mx kq : JS.number) (e : Env) :
  let m := cov2Dm e in
  let k := JS.literal kq in
  let detOrig := at3 m 0 0 * at3 m 1 1 - at3 m 0 1 * at3 m 0 1 in
  let detBlur :=
    (at3 m 0 0 + k) * (at3 m 1 1 + k) - at3 m 0 1 * at3 m 0 1 in
  let a := alpha (vColor e) * sqrt (Rmax (detOrig / detBlur) 0) in
  let m' := add_at11 (add_at00 m k) k in
  let c' := Vec4 (x4 (vColor e)) (y4 (vColor e)) (z4 (vColor e)) a in
  let ev := eigenValues (pointCloudModeEnabled e) (cov2Dv m') in
  let quad (c : vec4) :=
    if leb (snd ev) 0.0 then None
    else Some (emit eo e c
                 (basis mx (splatScale e) (cov2Dv m') (fst ev) (snd ev))) in
  at3 m' 0 0 = at3 m 0 0 + k /\
  at3 m' 1 1 = at3 m 1 1 + k /\
  at3 m' 0 1 = at3 m 0 1 /\
  (dilate true k (minAlpha e) m (vColor e) = None <-> a < minAlpha e) /\
  (a < minAlpha e -> buildVertexShaderProjection true eo mx kq e = None) /\
  (minAlpha e <= a ->
   dilate true k (minAlpha e) m (vColor e) = Some (m', c')) /\
  dilate false k (minAlpha e) m (vColor e) = Some (m', vColor e) /\
  (JS.plainDecimal mx = true -> minAlpha e <= a ->
   buildVertexShaderProjection true eo mx kq e = quad c') /\
  (JS.plainDecimal mx = true ->
   buildVertexShaderProjection false eo mx kq e = quad (vColor e)) /\
  (forall out,
      buildVertexShaderProjection true eo mx kq e = Some out ->
      minAlpha e <= a /\
      out_vColor out
      = (if eo then mul_alpha c' (splatOpacityFromScene e) else c')) /\
  (forall out,
      buildVertexShaderProjection false eo mx kq e = Some out ->
      out_vColor out
      = (if eo then mul_alpha (vColor e) (splatOpacityFromScene e)
         else vColor e)).
Proof.
  cbv zeta.
  destruct (dilate_entries (cov2Dm e) (JS.literal kq)) as (H00 & H11 & H01 & _).
  split; [exact H00 |]. split; [exact H11 |]. split; [exact H01 |].
  pose proof (dilate_true (JS.literal kq) (minAlpha e) (cov2Dm e) (vColor e))
    as Ht.
  cbv zeta in Ht.
  pose proof (dilate_true_passes (JS.literal kq) (minAlpha e) (cov2Dm e)
                (vColor e)) as Hpass.
  assert (Hlow : forall lt : alpha (vColor e)
                   * sqrt (Rmax ((at3 (cov2Dm e) 0 0 * at3 (cov2Dm e) 1 1
                                  - at3 (cov2Dm e) 0 1 * at3 (cov2Dm e) 0 1)
                                 / ((at3 (cov2Dm e) 0 0 + JS.literal kq)
                                    * (at3 (cov2Dm e) 1 1 + JS.literal kq)
                                    - at3 (cov2Dm e) 0 1
                                      * at3 (cov2Dm e) 0 1)) 0)
                   < minAlpha e,
             buildVertexShaderProjection true eo mx kq e = None).
  { intros Hlt. unfold buildVertexShaderProjection. rewrite Ht.
    match goal with |- context [ltb ?x ?y] =>
      replace (ltb x y) with true by (symmetry; apply ltb_true; exact Hlt)
    end.
    reflexivity. }
  split.
  { rewrite Ht.
    match goal with |- context [ltb ?x ?y] => destruct (ltb x y) eqn:E end.
    + apply ltb_true in E. split; [intros _; exact E | reflexivity].
    + apply ltb_false in E. split; [discriminate | lra]. }
  split; [exact Hlow |].
  split; [exact Hpass |].
  split; [reflexivity |].
  split.
  { intros _ Hge.
    exact (projection_after_dilation true eo mx kq e _ _ (Hpass Hge)). }
  split.
  { intros _.
    exact (projection_after_dilation false eo mx kq e _ _
             (dilate_false _ _ _ _)). }
  split.
  - intros out Hout.
    match goal with
    | |- ?lo <= ?x /\ _ => destruct (Rlt_dec x lo) as [Hlt | Hge]
    end.
    + rewrite (Hlow Hlt) in Hout. discriminate.
    + assert (Hge' := Rnot_lt_le _ _ Hge).
      split; [exact Hge' |].
      exact (projection_vColor true eo mx kq e _ _ out (Hpass Hge') Hout).
  - intros out Hout.
    exact (projection_vColor false eo mx kq e _ _ out
             (dilate_false _ _ _ _) Hout).
Qed.

Lemma unitSplat_quad_alpha :
  1 * sqrt (Rmax ((40000 * 40000 - 0 * 0)
                  / ((40000 + 0.3) * (40000 + 0.3) - 0 * 0)) 0)
  = 400000 / 400003.
Proof.
  replace 0.3 with (3 / 10) by lra.
  rewrite Rmax_left by (apply Rle_mult_inv_pos; lra).
  rewrite (sqrt_exact (400000 / 400003)); [lra | lra | field].
Qed.

Lemma unitSplat_second_eigenvalue :
  0 < snd (eigenSolve (Vec3 (40000 + 0.3) 0 (40000 + 0.3))).
Proof.
  rewrite eigenSolve_closed. cbn [snd].
  rewrite Rmax_left by lra.
  assert (H : sqrt 0.1 <= 1).
  { rewrite <- sqrt_1. apply sqrt_le_1_alt. lra. }
  lra.
Qed.

Lemma unitSplat_entries :
  at3 (cov2Dm unitSplat) 0 0 = 40000 /\ at3 (cov2Dm unitSplat) 0 1 = 0
  /\ at3 (cov2Dm unitSplat) 1 1 = 40000.
Proof.
  destruct (cov2Dv_entries (cov2Dm unitSplat)) as (-> & -> & ->).
  rewrite unitSplat_cov2Dv. repeat split.
Qed.

Lemma default_kernel : JS.literal defaultKernel2DSize = 0.3.
Proof.
  unfold JS.literal, defaultKernel2DSize, Q2R. cbn [Qnum Qden]. lra.
Qed.

(** The unit splat under antialiasing: the quad is drawn and carries the
    alpha [1 * 40000 / 40000.3]. *)
Lemma dilation_and_antialiasing_witness :
  exists out,
    buildVertexShaderProjection
      true false defaultMaxScreenSpaceSplatSize defaultKernel2DSize
      unitSplat = Some out /\
    alpha (out_vColor out) = 400000 / 400003.
Proof.
  destruct (dilation_and_antialiasing
              false defaultMaxScreenSpaceSplatSize defaultKernel2DSize
              unitSplat)
    as (_ & _ & _ & _ & _ & _ & _ & Hquad & _ & Hcol & _).
  destruct unitSplat_entries as (E00 & E01 & E11).
  rewrite dilated_cov2Dv in Hquad.
  rewrite E00, E01, E11, default_kernel in Hquad, Hcol.
  change (vColor unitSplat) with (Vec4 1 1 1 1) in Hquad, Hcol.
  change (minAlpha unitSplat) with 0 in Hquad, Hcol.
  change (pointCloudModeEnabled unitSplat) with 0%Z in Hquad.
  cbv [alpha x4 y4 z4 w4] in Hquad, Hcol.
  rewrite unitSplat_quad_alpha in Hquad, Hcol.
  assert (Hge : 0 <= 400000 / 400003) by (apply Rle_mult_inv_pos; lra).
  specialize (Hquad eq_refl Hge).
  rewrite eigenValues_ellipse in Hquad by discriminate.
  replace (leb (snd (eigenSolve (Vec3 (40000 + 0.3) 0 (40000 + 0.3)))) 0.0)
    with false in Hquad
    by (symmetry; apply leb_false; pose proof unitSplat_second_eigenvalue;
        lra).
  eexists. split; [exact Hquad |].
  destruct (Hcol _ Hquad) as [_ Hc]. rewrite Hc. reflexivity.
Defined.



(** Whenever the dilation step goes on, the matrix it passes on is the
    covariance with [kernel2DSize] added to its first two diagonal
    entries. *)
Lemma dilate_matrix (aa : bool) (k minA : R) (m m' : mat3) (c c' : vec4) :
  dilate aa k minA m c = Some (m', c') -> m' = add_at11 (add_at00 m k) k.
Proof.
  destruct aa.
  - rewrite dilate_true. cbv zeta.
    match goal with |- context [ltb ?x ?y] => destruct (ltb x y) end;
      [discriminate | intros H; injection H as <- _; reflexivity].
  - rewrite dilate_false. intros H; injection H as <- _; reflexivity.
Qed.

(** Without antialiasing and outside point-cloud mode, a positive second
    eigenvalue lets the projection reach the quad. *)
Lemma positive_eigenvalue_emits
      (eo : bool) (mx kq : JS.number) (e : Env) :
  pointCloudModeEnabled e <> 1%Z ->
  0 < snd (eigenSolve
             (cov2Dv (add_at11 (add_at00 (cov2Dm e) (JS.literal kq))
                               (JS.literal kq)))) ->
  buildVertexShaderProjection false eo mx kq e <> None.
Proof.
  intros Hpc Hpos.
  rewrite (projection_after_dilation false eo mx kq e _ _
             (dilate_false _ _ _ _)).
  rewrite (eigenValues_ellipse _ _ Hpc).
  match goal with |- context [leb ?x ?y] =>
    replace (leb x y) with false by (symmetry; apply leb_false; lra)
  end.
  discriminate.
Qed.

(** C7: outside point-cloud mode, when the eigen-solve of the dilated
    covariance yields a second eigenvalue that is zero or negative, the
    projection returns early: no basis vector and no quad corner is
    produced. *)
Theorem nonpositive_eigenvalue_discards
        (aa eo : bool) (mx kq : JS.number) (e : Env) :
  pointCloudModeEnabled e <> 1%Z ->
  snd (eigenSolve
         (cov2Dv (add_at11 (add_at00 (cov2Dm e) (JS.literal kq))
                           (JS.literal kq)))) <= 0 ->
  buildVertexShaderProjection aa eo mx kq e = None.
Proof.
  intros Hpc Hneg.
  destruct (dilate aa (JS.literal kq) (minAlpha e) (cov2Dm e) (vColor e))
    as [[cov' c'] |] eqn:Hd.
  - rewrite (projection_after_dilation aa eo mx kq e cov' c' Hd).
    rewrite (dilate_matrix _ _ _ _ _ _ _ Hd).
    rewrite (eigenValues_ellipse _ _ Hpc).
    match goal with |- context [leb ?x ?y] =>
      replace (leb x y) with true by (symmetry; apply leb_true; lra)
    end.
    reflexivity.
  - unfold buildVertexShaderProjection. rewrite Hd. reflexivity.
Qed.

(** The dilated 2D covariance of [degenerateSplat]. *)
Lemma degenerateSplat_cov2Dv : cov2Dv degenerateDilated = Vec3 1 0 (-0.01).
Proof.
  unfold degenerateDilated, degenerateSplat.
  rewrite identity_view_cov2Dm by reflexivity.
  rewrite J_orthographic by reflexivity.
  unfold Vrk, JS.literal, Q2R, defaultKernel2DSize.
  cbn [sampleSplat cov3D_M11_M12_M13 cov3D_M22_M23_M33 orthoZoom Qnum Qden].
  glsl_mat. apply vec3_eq; lra.
Qed.

Lemma degenerateSplat_eigenvalues :
  eigenSolve (Vec3 1 0 (-0.01)) = (1, -0.01).
Proof.
  rewrite eigenSolve_closed.
  replace (Rmax 0.1 (((1 + -0.01) / 2) ^ 2 - (1 * -0.01 - 0 ^ 2)))
    with 0.255025 by (rewrite Rmax_right; lra).
  rewrite (sqrt_exact 0.505 0.255025) by lra.
  f_equal; lra.
Qed.

Lemma nonpositive_eigenvalue_discards_witness :
  snd (eigenSolve (cov2Dv degenerateDilated)) = -0.01 /\
  buildVertexShaderProjection
    false false defaultMaxScreenSpaceSplatSize defaultKernel2DSize
    degenerateSplat = None.
Proof.
  assert (Hev : snd (eigenSolve (cov2Dv degenerateDilated)) = -0.01).
  { rewrite degenerateSplat_cov2Dv, degenerateSplat_eigenvalues.
    reflexivity. }
  split; [exact Hev |].
  apply (nonpositive_eigenvalue_discards
           false false defaultMaxScreenSpaceSplatSize defaultKernel2DSize
           degenerateSplat).
  - cbn. discriminate.
  - fold degenerateDilated. rewrite Hev. lra.
Defined.

(** * Further properties of the fragment stage *)

(** X1: Inverting twice gives the colour back. *)
Theorem invert_involutive (c : vec3) :
  applyInvertEffect (applyInvertEffect c) = c.
Proof. destruct c as [r g b]. glsl. apply vec3_eq; lra. Qed.

Lemma rainbow_channel (c h : R) :
  0 <= c <= 1 -> 0 <= c * (1 - 0.5) + (sin h * 0.5 + 0.5) * 0.5 <= 1.
Proof. intros Hc. pose proof (SIN_bound h). lra. Qed.

(** X2: The rainbow effect keeps a colour inside the unit cube: each channel
    of the result lies between 0 and 1 when the input channel does. *)
Theorem rainbow_keeps_unit_range (c : vec3) (t : R) :
  0 <= x3 c <= 1 -> 0 <= y3 c <= 1 -> 0 <= z3 c <= 1 ->
  0 <= x3 (applyRainbowEffect c t) <= 1 /\
  0 <= y3 (applyRainbowEffect c t) <= 1 /\
  0 <= z3 (applyRainbowEffect c t) <= 1.
Proof.
  intros Hx Hy Hz. destruct c as [r g b]. unfold applyRainbowEffect.
  cbv zeta. glsl. glsl. cbn [x3 y3 z3] in Hx, Hy, Hz.
  repeat split; apply rainbow_channel; assumption.
Qed.

Lemma rainbow_keeps_unit_range_witness :
  0 <= x3 (applyRainbowEffect (Vec3 1 0 0.5) 3) <= 1.
Proof.
  apply (rainbow_keeps_unit_range (Vec3 1 0 0.5) 3); cbn [x3 y3 z3]; lra.
Defined.

(** X3: The pulse step multiplies every channel by one common factor between
    one half and one: it never brightens and never changes the ratio of
    the channels. *)
Theorem pulse_scales_between_half_and_one (u : Uniforms) (c : vec3) :
  exists k : R,
    1 / 2 <= k <= 1 /\
    k = (1 + applyPulseEffect (pulseTime u)) / 2 /\
    applyEffect u Pulse c = scale3 c k.
Proof.
  exists ((1 + applyPulseEffect (pulseTime u)) / 2).
  unfold applyPulseEffect. pose proof (SIN_bound (pulseTime u)).
  split; [lra |]. split; [reflexivity |].
  destruct c as [r g b]. cbn [applyEffect]. unfold applyPulseEffect.
  glsl. glsl. apply vec3_eq; lra.
Qed.

Lemma dot2_nonneg (v : vec2) : 0 <= dot2 v v.
Proof. destruct v as [x y]. glsl. nra. Qed.

Lemma exp_le_compat (x y : R) : x <= y -> exp x <= exp y.
Proof.
  intros [Hlt | ->];
    [left; apply exp_increasing; exact Hlt | right; reflexivity].
Qed.

(** X4: The falloff never amplifies: a kept pixel of a splat with non-negative
    opacity gets an alpha between [exp(-4)] times that opacity and the
    opacity itself. *)
Theorem kept_alpha_bounds (u : Uniforms) (c : vec4) (p : vec2) (out : vec4) :
  0 <= alpha c ->
  main u c p = Some out ->
  exp (-4) * alpha c <= alpha out <= alpha c.
Proof.
  intros Ha Hm.
  assert (Hle : dot2 (finalPosition u p) (finalPosition u p) <= 8).
  { destruct (Rle_dec (dot2 (finalPosition u p) (finalPosition u p)) 8)
      as [H | H]; [exact H |].
    assert (HN : main u c p = None) by (apply main_discard_iff; lra).
    rewrite HN in Hm. discriminate. }
  rewrite (main_kept u c p Hle) in Hm. injection Hm as <-.
  unfold alpha, vec4_of. cbn [w4].
  pose proof (dot2_nonneg (finalPosition u p)) as H0.
  set (A := dot2 (finalPosition u p) (finalPosition u p)) in *.
  assert (H1 : exp (-0.5 * A) <= 1).
  { rewrite <- exp_0. apply exp_le_compat. lra. }
  assert (H2 : exp (-4) <= exp (-0.5 * A)) by (apply exp_le_compat; lra).
  unfold alpha in Ha. split; nra.
Qed.

Lemma main_initial_origin (c : vec4) :
  main initialUniforms c (Vec2 0 0)
  = Some (vec4_of (rgb c) (exp (-0.5 * 0) * alpha c)).
Proof.
  assert (Hp : finalPosition initialUniforms (Vec2 0 0) = Vec2 0 0).
  { unfold finalPosition. cbn [positionEffect initialUniforms].
    rewrite gtb_zero_zero. reflexivity. }
  assert (H0 : dot2 (Vec2 0 0) (Vec2 0 0) = 0) by (glsl; lra).
  rewrite main_kept; rewrite Hp, H0; [| lra].
  unfold finalColor. cbn [rainbowEffect pulseEffect glowEffect invertEffect
                          initialUniforms].
  rewrite gtb_zero_zero. reflexivity.
Qed.

Lemma kept_alpha_bounds_witness :
  exp (-4) * 1 <= exp (-0.5 * 0) * 1 <= 1.
Proof.
  apply (kept_alpha_bounds initialUniforms (Vec4 1 1 1 1) (Vec2 0 0)
           (Vec4 1 1 1 (exp (-0.5 * 0) * 1))).
  - unfold alpha. cbn [w4]. lra.
  - apply main_initial_origin.
Defined.

Lemma fract_decompose (x f : R) (z : Z) :
  0 <= f < 1 -> x = IZR z + f -> fract x = f.
Proof.
  intros Hf Hx. unfold fract.
  destruct (Int_part_frac_part_spec x z f Hf Hx) as [-> _]. lra.
Qed.

Lemma fract_split (x : R) : x = IZR (Int_part x) + fract x.
Proof. unfold fract. lra. Qed.

Lemma wave_half_period (t : R) : wave 15 (t + 1 / 30) = - wave 15 t.
Proof.
  unfold wave.
  replace ((t + 1 / 30) * 15) with (t * 15 + 0.5) by lra.
  pose proof (fract_range (t * 15)) as Hr.
  pose proof (fract_split (t * 15)) as Hs.
  destruct (ltb (fract (t * 15)) 0.5) eqn:E.
  - apply ltb_true in E.
    rewrite (fract_decompose (t * 15 + 0.5) (fract (t * 15) + 0.5)
               (Int_part (t * 15))) by lra.
    replace (ltb (fract (t * 15) + 0.5) 0.5) with false; [lra |].
    symmetry. apply ltb_false. lra.
  - apply ltb_false in E.
    rewrite (fract_decompose (t * 15 + 0.5) (fract (t * 15) - 0.5)
               (Int_part (t * 15) + 1)) by (try rewrite plus_IZR; lra).
    replace (ltb (fract (t * 15) - 0.5) 0.5) with true; [lra |].
    symmetry. apply ltb_true. lra.
Qed.

(** X5: Half a period later the jitter sits on the other side: the perturbed
    coordinates at times [t] and [t + 1/30] are mirror images about the
    unperturbed coordinate. *)
Theorem jitter_mirrors_after_half_period (u : Uniforms) (p : vec2) (t : R) :
  add2 (applyPositionEffect u p t) (applyPositionEffect u p (t + 1 / 30))
  = scale2 p 2.
Proof.
  unfold applyPositionEffect. cbv zeta.
  replace 15.0 with 15 by lra. rewrite wave_half_period.
  destruct p as [x y]. glsl. apply vec2_eq; lra.
Qed.

Lemma sqrt8_square : sqrt8 * sqrt8 = 8.
Proof. unfold sqrt8. apply sqrt_sqrt. lra. Qed.

Lemma finalPosition_off (u : Uniforms) (p : vec2) :
  positionEffect u <= 0 -> finalPosition u p = p.
Proof.
  intros Hoff. unfold finalPosition.
  replace (gtb (positionEffect u) 0.0) with false; [reflexivity |].
  symmetry. apply ltb_false. lra.
Qed.

Lemma projection_out_vPosition
      (aa eo : bool) (mx kq : JS.number) (e : Env) (out : Out) :
  buildVertexShaderProjection aa eo mx kq e = Some out ->
  out_vPosition out = scale2 (vPosition e) sqrt8.
Proof.
  unfold buildVertexShaderProjection.
  destruct (dilate aa (JS.literal kq) (minAlpha e) (cov2Dm e) (vColor e))
    as [[m c] |]; [| discriminate].
  destruct (eigenValues (pointCloudModeEnabled e) (cov2Dv m)) as [l1 l2].
  destruct (leb l2 0.0); [discriminate |].
  intros H. injection H as <-. reflexivity.
Qed.

Lemma point_cloud_projection (eo : bool) (mx kq : JS.number) (e : Env) :
  pointCloudModeEnabled e = 1%Z ->
  buildVertexShaderProjection false eo mx kq e
  = Some (emit eo e (vColor e)
            (basis mx (splatScale e)
               (cov2Dv (add_at11 (add_at00 (cov2Dm e) (JS.literal kq))
                                 (JS.literal kq)))
               0.2 0.2)).
Proof.
  intros Hpc.
  rewrite (projection_after_dilation false eo mx kq e _ _
             (dilate_false _ _ _ _)).
  rewrite Hpc, eigenValues_point_cloud. cbn [fst snd].
  replace (leb 0.2 0.0) with false; [reflexivity |].
  symmetry. apply leb_false. lra.
Qed.

(** X6: The two stages agree on the extent of a splat: the vertex stage hands
    the quad coordinate on multiplied by [sqrt8], and the fragment stage
    (jitter off) discards a pixel exactly when its quad coordinate lies
    outside the unit circle, so the visible footprint is the ellipse
    inscribed in the quad. *)
Theorem discard_outside_unit_circle
        (aa eo : bool) (mx kq : JS.number) (e : Env) (out : Out)
        (u : Uniforms) (c : vec4) (q : vec2) :
  buildVertexShaderProjection aa eo mx kq e = Some out ->
  positionEffect u <= 0 ->
  out_vPosition out = scale2 (vPosition e) sqrt8 /\
  (main u c (scale2 q sqrt8) = None <-> 1 < dot2 q q).
Proof.
  intros Hout Hoff.
  split; [exact (projection_out_vPosition _ _ _ _ _ _ Hout) |].
  rewrite main_discard_iff, (finalPosition_off u _ Hoff).
  destruct q as [x y]. glsl.
  replace (x * sqrt8 * (x * sqrt8) + y * sqrt8 * (y * sqrt8))
    with ((x * x + y * y) * (sqrt8 * sqrt8)) by ring.
  rewrite sqrt8_square. split; intros H; lra.
Qed.

Lemma discard_outside_unit_circle_witness :
  main initialUniforms (Vec4 1 1 1 1) (scale2 (Vec2 1 1) sqrt8) = None.
Proof.
  destruct (discard_outside_unit_circle
              false false defaultMaxScreenSpaceSplatSize defaultKernel2DSize
              pointSplat _ initialUniforms (Vec4 1 1 1 1) (Vec2 1 1)
              (point_cloud_projection false _ _ pointSplat eq_refl))
    as [_ H].
  - cbn [positionEffect initialUniforms]. lra.
  - apply H. glsl. lra.
Defined.

(** * Further properties of the vertex stage *)

Lemma term2_square (x : R) :
  sqrt (Rmax 0.1 x) * sqrt (Rmax 0.1 x) = Rmax 0.1 x.
Proof.
  apply sqrt_sqrt. apply Rle_trans with 0.1; [lra | apply Rmax_l].
Qed.

(** X7: The sum of the two eigenvalues is the trace.  Their product is the
    determinant, and both are roots of the characteristic polynomial,
    exactly as long as [((a - d) / 2)^2 + b^2] reaches the floor 0.1 of the
    square root; below the floor the product falls short of the
    determinant. *)
Theorem eigenvalues_trace_determinant (a b d : R) :
  let l1 := fst (eigenSolve (Vec3 a b d)) in
  let l2 := snd (eigenSolve (Vec3 a b d)) in
  let spread := ((a - d) / 2) ^ 2 + b ^ 2 in
  l1 + l2 = a + d /\
  l1 * l2 <= a * d - b ^ 2 /\
  (0.1 <= spread ->
   l1 * l2 = a * d - b ^ 2 /\
   l1 ^ 2 - (a + d) * l1 + (a * d - b ^ 2) = 0 /\
   l2 ^ 2 - (a + d) * l2 + (a * d - b ^ 2) = 0) /\
  (spread < 0.1 -> l1 * l2 < a * d - b ^ 2).
Proof.
  cbv zeta. rewrite eigenSolve_closed. cbn [fst snd].
  pose proof (term2_square (((a + d) / 2) ^ 2 - (a * d - b ^ 2))) as Hsq.
  set (r := sqrt (Rmax 0.1 (((a + d) / 2) ^ 2 - (a * d - b ^ 2)))) in *.
  assert (Hx : ((a + d) / 2) ^ 2 - (a * d - b ^ 2)
               = ((a - d) / 2) ^ 2 + b ^ 2) by field.
  rewrite Hx in Hsq.
  split; [lra |].
  split.
  { assert (H : ((a - d) / 2) ^ 2 + b ^ 2
                <= Rmax 0.1 (((a - d) / 2) ^ 2 + b ^ 2)) by apply Rmax_r.
    nra. }
  split.
  - intros Hfloor. rewrite Rmax_right in Hsq by exact Hfloor.
    repeat split; nra.
  - intros Hbelow. rewrite Rmax_left in Hsq by lra. nra.
Qed.

Lemma eigenvalues_trace_determinant_witness :
  fst (eigenSolve (Vec3 1 0 5)) * snd (eigenSolve (Vec3 1 0 5))
  = 1 * 5 - 0 ^ 2.
Proof.
  destruct (eigenvalues_trace_determinant 1 0 5) as (_ & _ & H & _).
  apply H. lra.
Defined.




(** ** Positive semi-definite covariances: the unit splat *)

Lemma psd_unitSplat : psd (Vrk unitSplat).
Proof.
  intros [x y z]. unfold unitSplat, sampleSplat, Vrk.
  cbn [cov3D_M11_M12_M13 cov3D_M22_M23_M33]. glsl_mat. nra.
Qed.

(** X10: A positive semi-definite 3D covariance projects to a positive
    semi-definite 2D covariance: before the dilation both diagonal entries
    and the determinant of the kept block are non-negative. *)
Theorem projection_preserves_psd (e : Env) :
  psd (Vrk e) ->
  0 <= x3 (cov2Dv (cov2Dm e)) /\
  0 <= z3 (cov2Dv (cov2Dm e)) /\
  0 <= x3 (cov2Dv (cov2Dm e)) * z3 (cov2Dv (cov2Dm e))
       - y3 (cov2Dv (cov2Dm e)) * y3 (cov2Dv (cov2Dm e)).
Proof.
  intros Hpsd. destruct (cov2Dm_psd e Hpsd) as (Ha & Hd & Hdet).
  unfold cov2Dv. cbn [x3 y3 z3]. repeat split; lra.
Qed.

Lemma projection_preserves_psd_witness :
  0 <= x3 (cov2Dv (cov2Dm unitSplat)).
Proof.
  exact (proj1 (projection_preserves_psd unitSplat psd_unitSplat)).
Defined.

Lemma antialias_factor_range (a b d k : R) :
  0 <= a -> 0 <= d -> b * b <= a * d -> 0 < k ->
  0 <= sqrt (Rmax ((a * d - b * b) / ((a + k) * (d + k) - b * b)) 0) <= 1.
Proof.
  intros Ha Hd Hdet Hk.
  assert (Hblur : 0 < (a + k) * (d + k) - b * b) by nra.
  assert (Hratio : 0 <= (a * d - b * b) / ((a + k) * (d + k) - b * b) <= 1).
  { split.
    - apply Rle_mult_inv_pos; lra.
    - apply Rmult_le_reg_r with ((a + k) * (d + k) - b * b); [exact Hblur |].
      unfold Rdiv. rewrite Rmult_assoc, Rinv_l by lra. nra. }
  rewrite Rmax_left by lra.
  split; [apply sqrt_pos |].
  rewrite <- sqrt_1. apply sqrt_le_1_alt. lra.
Qed.

(** X11: Antialiasing never brightens a splat: for a positive semi-definite
    covariance and a positive [kernel2DSize] the compensation factor lies
    between 0 and 1, so whenever the step goes on the alpha it passes on is
    at most the alpha it received. *)
Theorem antialiasing_never_brightens (kq : JS.number) (e : Env) :
  psd (Vrk e) -> 0 < JS.literal kq -> 0 <= alpha (vColor e) ->
  forall (m' : mat3) (c' : vec4),
    dilate true (JS.literal kq) (minAlpha e) (cov2Dm e) (vColor e)
    = Some (m', c') ->
    0 <= alpha c' <= alpha (vColor e) /\ rgb c' = rgb (vColor e).
Proof.
  intros Hpsd Hk Halpha m' c'. rewrite dilate_true. cbv zeta.
  destruct (cov2Dm_psd e Hpsd) as (Ha & Hd & Hdet).
  pose proof (antialias_factor_range _ _ _ _ Ha Hd Hdet Hk) as Hf.
  match type of Hf with
  | 0 <= ?f <= 1 => set (factor := f) in *; clearbody factor
  end.
  match goal with |- context [ltb ?x ?y] => destruct (ltb x y) end;
    [discriminate |].
  intros H. injection H as _ <-.
  cbv [alpha rgb x4 y4 z4 w4] in *.
  split; [| reflexivity]. nra.
Qed.

Lemma antialiasing_never_brightens_witness :
  exists (m' : mat3) (c' : vec4),
    dilate true (JS.literal defaultKernel2DSize) (minAlpha unitSplat)
           (cov2Dm unitSplat) (vColor unitSplat) = Some (m', c') /\
    0 <= alpha c' <= alpha (vColor unitSplat).
Proof.
  assert (Hk : 0 < JS.literal defaultKernel2DSize).
  { unfold JS.literal, defaultKernel2DSize, Q2R. cbn [Qnum Qden]. lra. }
  assert (Ha : 0 <= alpha (vColor unitSplat)).
  { change (vColor unitSplat) with (Vec4 1 1 1 1). cbv [alpha w4]. lra. }
  destruct (dilate true (JS.literal defaultKernel2DSize) (minAlpha unitSplat)
                   (cov2Dm unitSplat) (vColor unitSplat))
    as [[m' c'] |] eqn:Hd.
  - exists m', c'. split; [reflexivity |].
    exact (proj1 (antialiasing_never_brightens
                    defaultKernel2DSize unitSplat psd_unitSplat Hk Ha
                    m' c' Hd)).
  - exfalso. rewrite dilate_true in Hd. cbv zeta in Hd.
    match type of Hd with
    | context [ltb ?x ?y] =>
        assert (Hge : y <= x);
        [| apply ltb_false in Hge; rewrite Hge in Hd; discriminate]
    end.
    change (minAlpha unitSplat) with 0.
    change (vColor unitSplat) with (Vec4 1 1 1 1). cbv [alpha w4].
    match goal with |- 0 <= 1 * sqrt ?x => pose proof (sqrt_pos x) end.
    lra.
Defined.

(** ** Which splats the second-eigenvalue test drops *)

Lemma dilated_second_eigenvalue (a b d k : R) :
  0 <= a -> 0 <= d -> b * b <= a * d -> 0 < k ->
  (snd (eigenSolve (Vec3 (a + k) b (d + k))) <= 0
   <-> ((a - d) / 2) ^ 2 + b ^ 2 <= 0.1 /\ (a + d) / 2 + k <= sqrt 0.1).
Proof.
  intros Ha Hd Hdet Hk. rewrite eigenSolve_closed. cbn [fst snd].
  assert (Hx : ((a + k + (d + k)) / 2) ^ 2 - ((a + k) * (d + k) - b ^ 2)
               = ((a - d) / 2) ^ 2 + b ^ 2) by field.
  rewrite Hx.
  pose proof (term2_square (((a - d) / 2) ^ 2 + b ^ 2)) as Hsq.
  pose proof (term2_positive (((a - d) / 2) ^ 2 + b ^ 2)) as Hpos.
  destruct (Rle_dec (((a - d) / 2) ^ 2 + b ^ 2) 0.1) as [Hlow | Hhigh].
  - rewrite Rmax_left by exact Hlow. split.
    + intros H. split; [exact Hlow | lra].
    + intros [_ H]. lra.
  - rewrite Rmax_right in * by lra. split.
    + intros H. exfalso.
      set (r := sqrt (((a - d) / 2) ^ 2 + b ^ 2)) in *.
      assert (Hh : 0 < (a + d) / 2 + k) by lra.
      assert (Hr : ((a + d) / 2 + k) * ((a + d) / 2 + k) <= r * r) by nra.
      nra.
    + intros [Hlow _]. lra.
Qed.

(** X12: Without antialiasing and outside point-cloud mode, a splat with a
    positive semi-definite covariance is dropped by the second-eigenvalue
    test exactly when its 2D covariance [(a, b, d)] is both nearly
    isotropic, [((a - d) / 2)^2 + b^2 <= 0.1], and small,
    [(a + d) / 2 + kernel2DSize <= sqrt 0.1]: the dilation alone does not
    keep every splat visible. *)
Theorem small_splat_discard_iff (eo : bool) (mx kq : JS.number) (e : Env) :
  psd (Vrk e) -> 0 < JS.literal kq -> pointCloudModeEnabled e <> 1%Z ->
  let a := x3 (cov2Dv (cov2Dm e)) in
  let b := y3 (cov2Dv (cov2Dm e)) in
  let d := z3 (cov2Dv (cov2Dm e)) in
  buildVertexShaderProjection false eo mx kq e = None
  <-> ((a - d) / 2) ^ 2 + b ^ 2 <= 0.1
      /\ (a + d) / 2 + JS.literal kq <= sqrt 0.1.
Proof.
  intros Hpsd Hk Hpc. cbv zeta.
  destruct (cov2Dm_psd e Hpsd) as (Ha & Hd & Hdet).
  rewrite <- (dilated_second_eigenvalue _ _ _ _ Ha Hd Hdet Hk).
  rewrite (projection_after_dilation false eo mx kq e _ _
             (dilate_false _ _ _ _)).
  rewrite (eigenValues_ellipse _ _ Hpc), dilated_cov2Dv.
  match goal with |- context [leb ?x ?y] => destruct (leb x y) eqn:E end.
  - apply leb_true in E. split; [intros _; lra | reflexivity].
  - apply leb_false in E. split; [discriminate | lra].
Qed.

Lemma psd_zeroSplat : psd (Vrk zeroSplat).
Proof.
  intros [x y z]. unfold zeroSplat, sampleSplat, Vrk.
  cbn [cov3D_M11_M12_M13 cov3D_M22_M23_M33]. glsl_mat. nra.
Qed.

Lemma zeroSplat_cov2Dv : cov2Dv (cov2Dm zeroSplat) = Vec3 0 0 0.
Proof.
  unfold zeroSplat. rewrite identity_view_cov2Dm by reflexivity.
  rewrite J_perspective by (cbn [orthographicMode sampleSplat]; discriminate).
  unfold Vrk.
  cbn [sampleSplat cov3D_M11_M12_M13 cov3D_M22_M23_M33 viewCenter focal].
  glsl_mat. apply vec3_eq; field.
Qed.

(** With the default dilation 0.3 a splat without extent is not drawn. *)
Lemma small_splat_discard_iff_witness :
  buildVertexShaderProjection
    false false defaultMaxScreenSpaceSplatSize defaultKernel2DSize zeroSplat
  = None.
Proof.
  assert (Hk : JS.literal defaultKernel2DSize = 0.3).
  { unfold JS.literal, defaultKernel2DSize, Q2R. cbn [Qnum Qden]. lra. }
  apply (small_splat_discard_iff
           false defaultMaxScreenSpaceSplatSize defaultKernel2DSize
           zeroSplat psd_zeroSplat).
  - rewrite Hk. lra.
  - cbn. discriminate.
  - rewrite zeroSplat_cov2Dv, Hk. cbn [x3 y3 z3].
    assert (H : 0.3 <= sqrt 0.1) by (apply sqrt_lower; lra).
    split; lra.
Defined.

(** ** The lengths of the basis vectors *)

(** X13: The semi-axes of the footprint: for a [maxScreenSpaceSplatSize]
    that JavaScript prints in plain decimal notation, when the vector
    handed to [normalize] is not zero and the integer clamp is not
    negative, basis vector [i] has length
    [|splatScale| * min(sqrt8 * sqrt(eigenValue_i), clamp)], which never
    exceeds [|splatScale| * clamp]. *)
Theorem basis_vector_lengths
        (mx : JS.number) (s : R) (cov : vec3) (l1 l2 : R) :
  JS.plainDecimal mx = true ->
  Vec2 (y3 cov) (l1 - x3 cov) <> Vec2 0 0 ->
  0 <= JS.intLiteral mx ->
  let B := basis mx s cov l1 l2 in
  length2 (basisVector1 B)
  = Rabs s * Rmin (sqrt8 * sqrt l1) (JS.intLiteral mx) /\
  length2 (basisVector2 B)
  = Rabs s * Rmin (sqrt8 * sqrt l2) (JS.intLiteral mx) /\
  length2 (basisVector1 B) <= Rabs s * JS.intLiteral mx /\
  length2 (basisVector2 B) <= Rabs s * JS.intLiteral mx.
Proof.
  intros _ Hv Hm. cbv zeta.
  destruct (basis_lengths mx s cov l1 l2 Hv Hm) as [E1 E2].
  pose proof (clamp_range l1 _ Hm) as H1.
  pose proof (clamp_range l2 _ Hm) as H2.
  rewrite E1, E2. pose proof (Rabs_pos s).
  repeat split; try reflexivity; apply Rmult_le_compat_l; lra.
Qed.

Lemma basis_vector_lengths_witness :
  length2 (basisVector1 (basis defaultMaxScreenSpaceSplatSize 1
                               (Vec3 1 0 5) 5 1))
  <= Rabs 1 * JS.intLiteral defaultMaxScreenSpaceSplatSize.
Proof.
  destruct (basis_vector_lengths defaultMaxScreenSpaceSplatSize 1
              (Vec3 1 0 5) 5 1) as (_ & _ & H & _).
  - reflexivity.
  - cbn [x3 y3]. intros H. apply (f_equal y2) in H. cbn [y2] in H. lra.
  - unfold JS.intLiteral.
    change (JS.parseInt defaultMaxScreenSpaceSplatSize) with 2048%Z. lra.
  - exact H.
Defined.

(** ** The layout of the covariance texture *)

Lemma list_six_eq (a b c d e f a' b' c' d' e' f' : R) :
  a = a' -> b = b' -> c = c' -> d = d' -> e = e' -> f = f' ->
  [a; b; c; d; e; f] = [a'; b'; c'; d'; e'; f'].
Proof. intros -> -> -> -> -> ->. reflexivity. Qed.

(** X14: In the full-precision layout the six covariance scalars are six
    consecutive floats of the two sampled texels: they start at the first
    float for an even splat ([fOddOffset = 0]) and at the third for an odd
    one ([fOddOffset = 1]). *)
Theorem covariance_fetch_window
        (halfToFloat : Z -> R) (n : nat) (a b : vec4) (u : uvec4) :
  (n <= 1)%nat ->
  scalars (covarianceVectors halfToFloat 0 (INR n) a b u)
  = firstn 6 (skipn (2 * n) (texels a b)).
Proof.
  intros Hn. destruct a as [ar ag ab aa], b as [br bg bb ba].
  unfold covarianceVectors, scalars, texels.
  cbn [Z.eqb fst snd x4 y4 z4 w4].
  destruct n as [| [| n]].
  - cbn [INR Nat.mul Nat.add skipn firstn]. glsl.
    apply list_six_eq; lra.
  - cbn [INR Nat.mul Nat.add skipn firstn]. glsl.
    apply list_six_eq; lra.
  - exfalso. inversion Hn as [| m Hm]. inversion Hm.
Qed.

Lemma covariance_fetch_window_witness :
  scalars (covarianceVectors (fun _ => 0) 0 (INR 1)
             (Vec4 1 2 3 4) (Vec4 5 6 7 8) (UVec4 0 0 0 0))
  = [3; 4; 5; 6; 7; 8].
Proof.
  rewrite (covariance_fetch_window (fun _ => 0) 1 (Vec4 1 2 3 4)
             (Vec4 5 6 7 8) (UVec4 0 0 0 0) (le_n 1)).
  reflexivity.
Defined.

(** X15: In the packed layout the six scalars are the low and high halves of
    the first three words of the one texel, in that order; the fourth
    word, the odd offset and the float texels play no part. *)
Theorem covariance_fetch_packed
        (halfToFloat : Z -> R) (flag : Z) (f : R) (a b : vec4) (u : uvec4) :
  flag <> 0%Z ->
  scalars (covarianceVectors halfToFloat flag f a b u)
  = map halfToFloat
        [Z.land (ur u) 65535; Z.shiftr (ur u) 16;
         Z.land (ug u) 65535; Z.shiftr (ug u) 16;
         Z.land (ub u) 65535; Z.shiftr (ub u) 16].
Proof.
  intros Hflag. unfold covarianceVectors.
  destruct (Z.eqb_spec flag 0) as [E | _]; [contradiction |].
  reflexivity.
Qed.

Lemma covariance_fetch_packed_witness :
  scalars (covarianceVectors IZR 1 0 (Vec4 0 0 0 0) (Vec4 0 0 0 0)
             (UVec4 65537 131074 196611 9))
  = map IZR [1; 1; 2; 2; 3; 3]%Z.
Proof.
  rewrite (covariance_fetch_packed IZR 1 0 (Vec4 0 0 0 0) (Vec4 0 0 0 0)
             (UVec4 65537 131074 196611 9)) by discriminate.
  reflexivity.
Defined.

(** * Properties of the loading spinner *)

Import String.
Import Spinner.

Lemma lastTask_snoc (front : list Task) (t : Task) :
  lastTask (front ++ [t]) = t.
Proof.
  unfold lastTask. rewrite length_app. cbn [List.length].
  replace (List.length front + 1 - 1)%nat with (List.length front)
    by (rewrite Nat.add_sub; reflexivity).
  rewrite app_nth2 by apply le_n. rewrite Nat.sub_diag. reflexivity.
Qed.

Lemma nonempty_snoc (ts : list Task) :
  ts <> [] -> exists front t, ts = front ++ [t].
Proof.
  intros Hne. destruct (exists_last Hne) as (front & t & ->).
  exists front, t. reflexivity.
Qed.

Lemma update_tasks (s : LoadingSpinner) : tasks (update s) = tasks s.
Proof.
  unfold update. destruct (0 <? List.length (tasks s))%nat; reflexivity.
Qed.

Lemma update_taskIDGen (s : LoadingSpinner) :
  taskIDGen (update s) = taskIDGen s.
Proof.
  unfold update. destruct (0 <? List.length (tasks s))%nat; reflexivity.
Qed.

Lemma update_empty (s : LoadingSpinner) :
  tasks s = [] ->
  outerDisplay (update s) = "none"%string /\ visible (update s) = Some false /\
  messagePrimary (update s) = messagePrimary s /\
  messageMin (update s) = messageMin s.
Proof. intros H. unfold update. rewrite H. repeat split. Qed.

Lemma update_snoc (s : LoadingSpinner) (front : list Task) (t : Task) :
  tasks s = front ++ [t] ->
  outerDisplay (update s) = "block"%string /\ visible (update s) = Some true /\
  messagePrimary (update s) = message t /\
  messageMin (update s) = message t.
Proof.
  intros H. unfold update. rewrite H, lastTask_snoc, length_app.
  cbn [List.length]. rewrite Nat.add_comm. cbn [Nat.add Nat.ltb Nat.leb].
  repeat split.
Qed.

(** Every task call is [update] after a change of the task list. *)
Lemma task_call_is_update (s : LoadingSpinner) (c : Call) :
  isTaskCall c = true -> exists s0, call s c = update s0.
Proof.
  destruct c; cbn [isTaskCall]; try discriminate; intros _;
    cbn [call]; unfold addTask, removeTask, removeAllTasks,
      setMessageForTask; cbn [snd]; eexists; reflexivity.
Qed.

(** X16: After every method that changes or refreshes the task list, the
    spinner is shown exactly when a task is left, and both message
    containers then carry the message of the most recently added task
    still in the list. *)
Theorem spinner_shows_last_task (s : LoadingSpinner) (c : Call) :
  isTaskCall c = true ->
  let s' := call s c in
  (tasks s' = [] ->
   outerDisplay s' = "none"%string /\ visible s' = Some false) /\
  (forall front t,
      tasks s' = front ++ [t] ->
      outerDisplay s' = "block"%string /\ visible s' = Some true /\
      messagePrimary s' = message t /\ messageMin s' = message t).
Proof.
  intros Hc. cbv zeta. destruct (task_call_is_update s c Hc) as [s0 ->].
  rewrite update_tasks. split.
  - intros H. destruct (update_empty s0 H) as (H1 & H2 & _). split; assumption.
  - intros front t H. exact (update_snoc s0 front t H).
Qed.

Lemma spinner_shows_last_task_witness :
  messagePrimary (call (fst (construct 0 None)) (AddTask "a"%string))
  = "a"%string.
Proof.
  destruct (spinner_shows_last_task (fst (construct 0 None))
              (AddTask "a"%string) eq_refl) as [_ H].
  destruct (H [] (mkTask "a"%string 0) eq_refl) as (_ & _ & Hm & _).
  exact Hm.
Defined.

(** ** Task ids *)

Lemma spliceFirst_incl (i : nat) (ts : list Task) :
  incl (map id (spliceFirst i ts)) (map id ts).
Proof.
  induction ts as [| t rest IH]; cbn [spliceFirst map]; [apply incl_refl |].
  destruct (id t =? i)%nat.
  - apply incl_tl, incl_refl.
  - cbn [map]. intros x [Hx | Hx]; [left; exact Hx | right; apply IH, Hx].
Qed.

Lemma spliceFirst_NoDup (i : nat) (ts : list Task) :
  NoDup (map id ts) -> NoDup (map id (spliceFirst i ts)).
Proof.
  induction ts as [| t rest IH]; cbn [spliceFirst map]; intros Hnd;
    [exact Hnd |].
  inversion Hnd as [| x l Hnotin Hrest]; subst.
  destruct (id t =? i)%nat; [exact Hrest |].
  cbn [map]. constructor; [| apply IH, Hrest].
  intros Hin. apply Hnotin. exact (spliceFirst_incl i rest _ Hin).
Qed.

Lemma assignFirst_ids (i : nat) (msg : string) (ts : list Task) :
  map id (assignFirst i msg ts) = map id ts.
Proof.
  induction ts as [| t rest IH]; cbn [assignFirst map]; [reflexivity |].
  destruct (id t =? i)%nat; cbn [map id]; [reflexivity |].
  rewrite IH. reflexivity.
Qed.

Lemma idsFresh_update (s : LoadingSpinner) : idsFresh s -> idsFresh (update s).
Proof.
  unfold idsFresh, ids. rewrite update_tasks, update_taskIDGen. auto.
Qed.

Lemma idsFresh_call (s : LoadingSpinner) (c : Call) :
  idsFresh s -> idsFresh (call s c).
Proof.
  intros [Hnd Hlt].
  destruct c as [msg | i | | i msg | | | | mn inst | msg]; cbn [call];
    try (split; assumption).
  - (* addTask *)
    unfold addTask. cbn [snd]. apply idsFresh_update.
    unfold idsFresh, ids, withTasks. cbn [tasks taskIDGen].
    rewrite map_app. cbn [map id]. split.
    + apply NoDup_app; [exact Hnd | repeat constructor; intros [] |].
      intros x Hx [<- | []].
      rewrite Forall_forall in Hlt. specialize (Hlt _ Hx).
      exact (Nat.lt_irrefl _ Hlt).
    + apply Forall_app. split.
      * eapply Forall_impl; [| exact Hlt]. intros a Ha.
        apply Nat.lt_lt_succ_r, Ha.
      * repeat constructor.
  - (* removeTask *)
    unfold removeTask. apply idsFresh_update.
    unfold idsFresh, ids, withTasks. cbn [tasks taskIDGen]. split.
    + apply spliceFirst_NoDup, Hnd.
    + rewrite Forall_forall in *. intros x Hx.
      apply Hlt. exact (spliceFirst_incl i (tasks s) _ Hx).
  - (* removeAllTasks *)
    unfold removeAllTasks. apply idsFresh_update.
    unfold idsFresh, ids, withTasks. cbn [tasks taskIDGen map].
    split; constructor.
  - (* setMessageForTask *)
    unfold setMessageForTask. apply idsFresh_update.
    unfold idsFresh, ids, withTasks. cbn [tasks taskIDGen].
    rewrite assignFirst_ids. split; assumption.
  - (* update *)
    apply idsFresh_update. split; assumption.
  - (* setMinimized *)
    destruct mn, inst; split; assumption.
Qed.

Lemma idsFresh_construct (g : nat) (m : option string) :
  idsFresh (fst (construct g m)).
Proof. split; constructor. Qed.

Lemma idsFresh_run (cs : list Call) (s : LoadingSpinner) :
  idsFresh s -> idsFresh (run cs s).
Proof.
  revert s. induction cs as [| c cs IH]; intros s Hs; [exact Hs |].
  cbn [run fold_left]. apply IH, idsFresh_call, Hs.
Qed.

(** X17: Whatever methods are called on a spinner, in whatever order, no two
    tasks in its list share an id and every id is below the counter the
    next task will take. *)
Theorem task_ids_stay_unique
        (g : nat) (m : option string) (cs : list Call) :
  NoDup (ids (run cs (fst (construct g m)))) /\
  Forall (fun i => (i < taskIDGen (run cs (fst (construct g m))))%nat)
         (ids (run cs (fst (construct g m)))).
Proof. exact (idsFresh_run cs _ (idsFresh_construct g m)). Qed.

(** X18: [addTask] returns an id no task of the list has, appends the task at
    the end, and shows the spinner with the new message. *)
Theorem addTask_returns_fresh_id
        (g : nat) (m : option string) (cs : list Call) (msg : string) :
  let s := run cs (fst (construct g m)) in
  let i := fst (addTask msg s) in
  let s' := snd (addTask msg s) in
  ~ In i (ids s) /\
  tasks s' = tasks s ++ [mkTask msg i] /\
  outerDisplay s' = "block"%string /\
  messagePrimary s' = msg /\ messageMin s' = msg.
Proof.
  cbv zeta. set (s := run cs (fst (construct g m))).
  destruct (idsFresh_run cs _ (idsFresh_construct g m)) as [_ Hlt].
  fold s in Hlt. unfold addTask. cbn [fst snd id].
  split.
  { intros Hin. rewrite Forall_forall in Hlt.
    exact (Nat.lt_irrefl _ (Hlt _ Hin)). }
  rewrite update_tasks. split; [reflexivity |].
  destruct (update_snoc
              (withTasks (tasks s ++ [mkTask msg (taskIDGen s)])
                         (S (taskIDGen s)) s)
              (tasks s) (mkTask msg (taskIDGen s)) eq_refl)
    as (H1 & _ & H3 & H4).
  repeat split; assumption.
Qed.

(** ** Removing and renaming tasks *)

Lemma spliceFirst_absent (i : nat) (ts : list Task) :
  ~ In i (map id ts) -> spliceFirst i ts = ts.
Proof.
  induction ts as [| t rest IH]; cbn [spliceFirst map]; intros Hnot;
    [reflexivity |].
  destruct (Nat.eqb_spec (id t) i) as [E | _].
  - exfalso. apply Hnot. left. exact E.
  - rewrite IH; [reflexivity |]. intros Hin. apply Hnot. right. exact Hin.
Qed.

Lemma filter_absent (i : nat) (ts : list Task) :
  ~ In i (map id ts) ->
  filter (fun t => negb (id t =? i)%nat) ts = ts.
Proof.
  induction ts as [| t rest IH]; cbn [filter map]; intros Hnot;
    [reflexivity |].
  destruct (Nat.eqb_spec (id t) i) as [E | _]; cbn [negb].
  - exfalso. apply Hnot. left. exact E.
  - rewrite IH; [reflexivity |]. intros Hin. apply Hnot. right. exact Hin.
Qed.

Lemma spliceFirst_filter (i : nat) (ts : list Task) :
  NoDup (map id ts) ->
  spliceFirst i ts = filter (fun t => negb (id t =? i)%nat) ts.
Proof.
  induction ts as [| t rest IH]; cbn [spliceFirst filter map]; intros Hnd;
    [reflexivity |].
  inversion Hnd as [| x l Hnotin Hrest]; subst.
  destruct (Nat.eqb_spec (id t) i) as [E | _]; cbn [negb].
  - subst i. symmetry. apply filter_absent. exact Hnotin.
  - rewrite IH by exact Hrest. reflexivity.
Qed.

(** X19: On a spinner reached by any sequence of calls, [removeTask] removes
    the task with the given id, keeps every other task in its place, and
    changes nothing when no task has the id. *)
Theorem removeTask_removes_exactly
        (g : nat) (m : option string) (cs : list Call) (i : nat) :
  let s := run cs (fst (construct g m)) in
  tasks (removeTask i s)
  = filter (fun t => negb (id t =? i)%nat) (tasks s) /\
  ~ In i (ids (removeTask i s)) /\
  (~ In i (ids s) -> tasks (removeTask i s) = tasks s).
Proof.
  cbv zeta. set (s := run cs (fst (construct g m))).
  destruct (idsFresh_run cs _ (idsFresh_construct g m)) as [Hnd _].
  fold s in Hnd. unfold removeTask, ids. rewrite update_tasks.
  cbn [withTasks tasks].
  rewrite (spliceFirst_filter i (tasks s) Hnd).
  split; [reflexivity |]. split.
  - rewrite in_map_iff. intros (t & Hid & Hin).
    apply filter_In in Hin. destruct Hin as [_ Hneq].
    rewrite Hid, Nat.eqb_refl in Hneq. discriminate.
  - intros Hnot. apply filter_absent. exact Hnot.
Qed.

Lemma removeTask_removes_exactly_witness :
  tasks (removeTask 7 (run [AddTask "a"%string] (fst (construct 0 None))))
  = tasks (run [AddTask "a"%string] (fst (construct 0 None))).
Proof.
  destruct (removeTask_removes_exactly 0 None [AddTask "a"%string] 7)
    as (_ & _ & H).
  apply H. cbn. intros [H7 | []]. discriminate.
Defined.

Lemma spliceFirst_snoc_fresh (i : nat) (msg : string) (ts : list Task) :
  ~ In i (map id ts) -> spliceFirst i (ts ++ [mkTask msg i]) = ts.
Proof.
  intros Hnot. induction ts as [| t rest IH];
    cbn [app spliceFirst id map] in *.
  - rewrite Nat.eqb_refl. reflexivity.
  - destruct (Nat.eqb_spec (id t) i) as [E | _].
    + exfalso. apply Hnot. left. exact E.
    + rewrite IH; [reflexivity |]. intros Hin. apply Hnot. right. exact Hin.
Qed.

(** Adding a task and removing it again is [update] on the earlier state
    with the counter advanced and the added message in the containers. *)
Lemma add_then_remove_is_update (s : LoadingSpinner) (msg : string) :
  ~ In (taskIDGen s) (map id (tasks s)) ->
  removeTask (fst (addTask msg s)) (snd (addTask msg s))
  = update (withTasks (tasks s) (S (taskIDGen s)) (setMessage msg s)).
Proof.
  intros Hnot. unfold removeTask, addTask. cbn [fst snd id].
  rewrite update_tasks, update_taskIDGen. cbn [withTasks tasks taskIDGen].
  rewrite (spliceFirst_snoc_fresh _ _ _ Hnot). clear Hnot.
  destruct s as [gen el ts sm od pd md mp mmin vis mini f0 f1].
  unfold update, withTasks.
  cbn [tasks taskIDGen elementID spinnerMessage outerDisplay primaryDisplay
       minDisplay messagePrimary messageMin visible minimized
       fadeTransition0 fadeTransition1].
  rewrite length_app, Nat.add_comm.
  cbn [List.length Nat.add Nat.ltb Nat.leb].
  destruct ts; reflexivity.
Qed.

(** X20: Adding a task and removing it under the id that was returned gives
    the task list back and moves the id counter on by one.  The other
    fields are those of [update] run on the earlier state with the added
    message in the two message containers: with tasks left the spinner is
    shown with the last task's message, with none left it is hidden and
    the added message stays in the containers; the remaining fields keep
    their values.  For an earlier state that has tasks and that [update]
    leaves as it is, only the id counter has moved on. *)
Theorem add_then_remove_restores_tasks
        (g : nat) (m : option string) (cs : list Call) (msg : string) :
  let s := run cs (fst (construct g m)) in
  let s' := removeTask (fst (addTask msg s)) (snd (addTask msg s)) in
  s' = update (withTasks (tasks s) (S (taskIDGen s)) (setMessage msg s)) /\
  tasks s' = tasks s /\ taskIDGen s' = S (taskIDGen s) /\
  (tasks s <> [] ->
   visible s' = Some true /\ outerDisplay s' = "block"%string /\
   messagePrimary s' = message (lastTask (tasks s)) /\
   messageMin s' = message (lastTask (tasks s))) /\
  (tasks s = [] ->
   visible s' = Some false /\ outerDisplay s' = "none"%string /\
   messagePrimary s' = msg /\ messageMin s' = msg) /\
  (elementID s' = elementID s /\ spinnerMessage s' = spinnerMessage s /\
   primaryDisplay s' = primaryDisplay s /\ minDisplay s' = minDisplay s /\
   minimized s' = minimized s /\ fadeTransition0 s' = fadeTransition0 s /\
   fadeTransition1 s' = fadeTransition1 s) /\
  (tasks s <> [] -> update s = s ->
   s' = withTasks (tasks s) (S (taskIDGen s)) s).
Proof.
  cbv zeta. set (s := run cs (fst (construct g m))).
  destruct (idsFresh_run cs _ (idsFresh_construct g m)) as [_ Hlt].
  fold s in Hlt.
  assert (Hnot : ~ In (taskIDGen s) (map id (tasks s))).
  { intros Hin. unfold ids in Hlt. rewrite Forall_forall in Hlt.
    exact (Nat.lt_irrefl _ (Hlt _ Hin)). }
  clear Hlt. clearbody s.
  rewrite (add_then_remove_is_update s msg Hnot). clear Hnot.
  split; [reflexivity |].
  split; [rewrite update_tasks; reflexivity |].
  split; [rewrite update_taskIDGen; reflexivity |].
  destruct s as [gen el ts sm od pd md mp mmin vis mini f0 f1].
  unfold update. cbn [withTasks setMessage tasks taskIDGen elementID
    spinnerMessage outerDisplay primaryDisplay minDisplay messagePrimary
    messageMin visible minimized fadeTransition0 fadeTransition1].
  destruct ts as [| t rest].
  - cbn [List.length Nat.ltb Nat.leb].
    split; [intros H; contradiction |].
    split; [intros _; repeat split |].
    split; [repeat split |]. intros H; contradiction.
  - change (0 <? List.length (t :: rest))%nat with true. cbv iota.
    split; [intros _; repeat split |].
    split; [intros H; discriminate |].
    split; [repeat split |].
    intros _ Hupd. unfold show, setMessage in *.
    cbn [tasks taskIDGen elementID spinnerMessage outerDisplay
         primaryDisplay minDisplay messagePrimary messageMin visible
         minimized fadeTransition0 fadeTransition1] in *.
    injection Hupd as Hod Hmp Hmm Hvis.
    subst od mp mmin vis. reflexivity.
Qed.

(** On a new spinner the added message stays in the containers of the
    hidden spinner. *)
Lemma add_then_remove_restores_tasks_witness :
  let s := run [] (fst (construct 0 None)) in
  let s' := removeTask (fst (addTask "a" s)) (snd (addTask "a" s)) in
  visible s' = Some false /\ messagePrimary s' = "a"%string
  /\ messagePrimary s = "Loading..."%string.
Proof.
  cbv zeta.
  destruct (add_then_remove_restores_tasks 0 None [] "a")
    as (_ & _ & _ & _ & Hempty & _).
  destruct (Hempty eq_refl) as (Hv & _ & Hm & _).
  split; [exact Hv |]. split; [exact Hm | reflexivity].
Defined.

(** X21: Hiding does not reset the text: when the only task is removed, the
    spinner is hidden and both message containers still carry that task's
    message. *)
Theorem hidden_spinner_keeps_message (s : LoadingSpinner) (msg : string) :
  tasks s = [] ->
  let s' := removeTask (fst (addTask msg s)) (snd (addTask msg s)) in
  tasks s' = [] /\
  outerDisplay s' = "none"%string /\ visible s' = Some false /\
  messagePrimary s' = msg /\ messageMin s' = msg.
Proof.
  intros Hempty. cbv zeta.
  assert (Hi : fst (addTask msg s) = taskIDGen s) by reflexivity.
  assert (Ht : tasks (snd (addTask msg s)) = [mkTask msg (taskIDGen s)]).
  { unfold addTask. cbn [snd]. rewrite update_tasks. cbn [withTasks tasks].
    rewrite Hempty. reflexivity. }
  destruct (update_snoc
              (withTasks (tasks s ++ [mkTask msg (taskIDGen s)])
                         (S (taskIDGen s)) s)
              (tasks s) (mkTask msg (taskIDGen s)) eq_refl)
    as (_ & _ & Hp & Hm).
  change (update (withTasks (tasks s ++ [mkTask msg (taskIDGen s)])
                            (S (taskIDGen s)) s))
    with (snd (addTask msg s)) in Hp, Hm.
  rewrite Hi. unfold removeTask. rewrite Ht.
  cbn [spliceFirst id]. rewrite Nat.eqb_refl.
  set (s0 := withTasks [] (taskIDGen (snd (addTask msg s)))
                       (snd (addTask msg s))).
  destruct (update_empty s0 eq_refl) as (H1 & H2 & H3 & H4).
  rewrite update_tasks.
  split; [reflexivity |]. split; [exact H1 |]. split; [exact H2 |].
  split; [rewrite H3; exact Hp | rewrite H4; exact Hm].
Qed.

Lemma hidden_spinner_keeps_message_witness :
  messagePrimary
    (removeTask (fst (addTask "a"%string (fst (construct 0 None))))
                (snd (addTask "a"%string (fst (construct 0 None)))))
  = "a"%string.
Proof.
  destruct (hidden_spinner_keeps_message (fst (construct 0 None))
              "a"%string eq_refl) as (_ & _ & _ & H & _).
  exact H.
Defined.

Lemma assignFirst_map (i : nat) (msg : string) (ts : list Task) :
  NoDup (map id ts) ->
  assignFirst i msg ts
  = map (fun t => if (id t =? i)%nat then mkTask msg (id t) else t) ts.
Proof.
  induction ts as [| t rest IH]; cbn [assignFirst map]; intros Hnd;
    [reflexivity |].
  inversion Hnd as [| x l Hnotin Hrest]; subst.
  destruct (Nat.eqb_spec (id t) i) as [E | _].
  - f_equal. subst i. clear IH Hnd Hrest.
    induction rest as [| r rest IH]; [reflexivity |].
    cbn [map] in *.
    destruct (Nat.eqb_spec (id r) (id t)) as [E | _].
    + exfalso. apply Hnotin. left. exact E.
    + rewrite <- IH; [reflexivity |]. intros Hin. apply Hnotin. right.
      exact Hin.
  - rewrite IH by exact Hrest. reflexivity.
Qed.

(** X22: On a spinner reached by any sequence of calls, [setMessageForTask]
    renames the task with the given id and touches no other task, no id
    and no position in the list. *)
Theorem setMessageForTask_renames_one
        (g : nat) (m : option string) (cs : list Call)
        (i : nat) (msg : string) :
  let s := run cs (fst (construct g m)) in
  tasks (setMessageForTask i msg s)
  = map (fun t => if (id t =? i)%nat then mkTask msg (id t) else t)
        (tasks s) /\
  ids (setMessageForTask i msg s) = ids s.
Proof.
  cbv zeta. set (s := run cs (fst (construct g m))).
  destruct (idsFresh_run cs _ (idsFresh_construct g m)) as [Hnd _].
  fold s in Hnd. unfold setMessageForTask, ids. rewrite update_tasks.
  cbn [withTasks tasks]. split.
  - apply assignFirst_map. exact Hnd.
  - apply assignFirst_ids.
Qed.

(** * Properties of the effect buttons *)

Lemma clicks_app (xs ys : list string) (b : Panel.Buttons) :
  Panel.clicks (xs ++ ys) b
  = (fst (Panel.clicks ys (fst (Panel.clicks xs b))),
     snd (Panel.clicks xs b)
     ++ snd (Panel.clicks ys (fst (Panel.clicks xs b)))).
Proof.
  revert b. induction xs as [| x xs IH]; intros b; cbn [app Panel.clicks].
  - cbn [fst snd app]. destruct (Panel.clicks ys b); reflexivity.
  - destruct (Panel.click x b) as [b1 d] eqn:Ec.
    rewrite IH. destruct (Panel.clicks xs b1) as [b2 ds].
    cbn [fst snd app]. reflexivity.
Qed.

Lemma clicks_length (es : list string) (b : Panel.Buttons) :
  List.length (snd (Panel.clicks es b)) = List.length es.
Proof.
  revert b. induction es as [| e es IH]; intros b; cbn [Panel.clicks];
    [reflexivity |].
  destruct (Panel.click e b) as [b1 d].
  specialize (IH b1). destruct (Panel.clicks es b1) as [b2 ds].
  cbn [snd List.length] in *. rewrite IH. reflexivity.
Qed.

Lemma clicks_parity (es : list string) (b : Panel.Buttons) (e : string) :
  fst (Panel.clicks es b) e
  = xorb (b e) (Nat.odd (count_occ string_dec es e)).
Proof.
  revert b. induction es as [| x es IH]; intros b;
    cbn [Panel.clicks count_occ].
  - cbn [fst Nat.odd Nat.even]. destruct (b e); reflexivity.
  - unfold Panel.click.
    specialize (IH (fun e0 => if String.eqb e0 x then negb (b e0) else b e0)).
    destruct (Panel.clicks es _) as [b2 ds]. cbn [fst] in *. rewrite IH.
    destruct (string_dec x e) as [-> | Hne].
    + rewrite String.eqb_refl, Nat.odd_succ, <- Nat.negb_odd.
      destruct (b e), (Nat.odd (count_occ string_dec es e)); reflexivity.
    + destruct (String.eqb_spec e x) as [E | _];
        [exfalso; apply Hne; symmetry; exact E | reflexivity].
Qed.

(** X23: The buttons and the events stay in step: after any sequence of clicks
    a button carries the class [active] exactly when it was clicked an odd
    number of times, one event is dispatched per click, and the event of a
    click names the clicked effect and reports the state the button has
    right after that click. *)
Theorem button_events_follow_state
        (pre post : list string) (e x : string) :
  fst (Panel.clicks pre Panel.initialButtons) x
  = Nat.odd (count_occ string_dec pre x) /\
  List.length (snd (Panel.clicks (pre ++ e :: post) Panel.initialButtons))
  = List.length (pre ++ e :: post) /\
  nth_error (snd (Panel.clicks (pre ++ e :: post) Panel.initialButtons))
            (List.length pre)
  = Some (Panel.mkDetail
            e (fst (Panel.clicks (pre ++ [e]) Panel.initialButtons) e)).
Proof.
  split; [rewrite clicks_parity; reflexivity |].
  split; [apply clicks_length |].
  rewrite (clicks_app pre (e :: post)). cbn [snd].
  rewrite nth_error_app2 by (rewrite clicks_length; apply le_n).
  rewrite clicks_length, Nat.sub_diag.
  rewrite (clicks_app pre [e]). cbn [fst].
  cbn [Panel.clicks]. unfold Panel.click.
  destruct (Panel.clicks post _) as [b2 ds].
  cbn [snd fst nth_error]. rewrite String.eqb_refl. reflexivity.
Qed.

(** * Properties of the effect handlers *)

Lemma state_eq (r : Z) (t t' : R) (p : Z) (pt pt' : R) (g i : Z) (n : bool)
      (rl pl : nat) :
  t = t' -> pt = pt' ->
  Handlers.mkState r t p pt g i n rl pl
  = Handlers.mkState r t' p pt' g i n rl pl.
Proof. intros -> ->. reflexivity. Qed.

Lemma iter_updateTime_on (n : nat) (s : Handlers.State) :
  Handlers.rainbowEffect s = 1%Z ->
  Nat.iter n Handlers.updateTime s
  = Handlers.mkState 1 (Handlers.time s + INR n * 0.01)
      (Handlers.pulseEffect s) (Handlers.pulseTime s)
      (Handlers.glowEffect s) (Handlers.invertEffect s)
      (Handlers.uniformsNeedUpdate s)
      (n + Handlers.rainbowLoops s) (Handlers.pulseLoops s).
Proof.
  intros Hon. induction n as [| n IH].
  - destruct s as [r t p pt g i u rl pl]. cbn in *. subst r.
    apply state_eq; lra.
  - rewrite Nat.iter_succ, IH. unfold Handlers.updateTime.
    cbn [Handlers.rainbowEffect Z.eqb Pos.eqb Handlers.time
         Handlers.pulseEffect Handlers.pulseTime Handlers.glowEffect
         Handlers.invertEffect Handlers.uniformsNeedUpdate
         Handlers.rainbowLoops Handlers.pulseLoops].
    rewrite S_INR. cbn [Nat.add]. apply state_eq; lra.
Qed.

Lemma iter_updateTime_off (n : nat) (s : Handlers.State) :
  Handlers.rainbowEffect s <> 1%Z -> Nat.iter n Handlers.updateTime s = s.
Proof.
  intros Hoff. induction n as [| n IH]; [reflexivity |].
  rewrite Nat.iter_succ, IH. unfold Handlers.updateTime.
  destruct (Z.eqb_spec (Handlers.rainbowEffect s) 1);
    [contradiction | reflexivity].
Qed.

(** The pulse loops leave the rainbow fields alone. *)
Lemma iter_updatePulse_rainbow (n : nat) (s : Handlers.State) :
  Handlers.rainbowEffect (Nat.iter n Handlers.updatePulse s)
  = Handlers.rainbowEffect s /\
  Handlers.time (Nat.iter n Handlers.updatePulse s) = Handlers.time s /\
  Handlers.rainbowLoops (Nat.iter n Handlers.updatePulse s)
  = Handlers.rainbowLoops s.
Proof.
  induction n as [| n IH]; [repeat split |].
  rewrite Nat.iter_succ. destruct IH as (H1 & H2 & H3).
  unfold Handlers.updatePulse.
  destruct (Z.eqb (Handlers.pulseEffect _) 1); cbn; auto.
Qed.

Lemma frame_rainbow_on (s : Handlers.State) :
  Handlers.rainbowEffect s = 1%Z ->
  Handlers.rainbowEffect (Handlers.frame s) = 1%Z /\
  Handlers.time (Handlers.frame s)
  = Handlers.time s + INR (Handlers.rainbowLoops s) * 0.01 /\
  Handlers.rainbowLoops (Handlers.frame s) = Handlers.rainbowLoops s.
Proof.
  intros Hon. unfold Handlers.frame. cbv zeta.
  match goal with
  | |- context [Nat.iter _ Handlers.updatePulse ?a] =>
      destruct (iter_updatePulse_rainbow (Handlers.pulseLoops s) a)
        as (H1 & H2 & H3)
  end.
  rewrite H1, H2, H3.
  rewrite iter_updateTime_on by exact Hon.
  cbn [Handlers.rainbowEffect Handlers.time Handlers.rainbowLoops].
  rewrite Nat.add_0_r. repeat split.
Qed.

Lemma frame_rainbow_off (s : Handlers.State) :
  Handlers.rainbowEffect s <> 1%Z ->
  Handlers.rainbowEffect (Handlers.frame s) = Handlers.rainbowEffect s /\
  Handlers.time (Handlers.frame s) = Handlers.time s /\
  Handlers.rainbowLoops (Handlers.frame s) = 0%nat.
Proof.
  intros Hoff. unfold Handlers.frame. cbv zeta.
  match goal with
  | |- context [Nat.iter _ Handlers.updatePulse ?a] =>
      destruct (iter_updatePulse_rainbow (Handlers.pulseLoops s) a)
        as (H1 & H2 & H3)
  end.
  rewrite H1, H2, H3.
  rewrite iter_updateTime_off by exact Hoff. repeat split.
Qed.

Lemma frames_rainbow_on (k : nat) (s : Handlers.State) :
  Handlers.rainbowEffect s = 1%Z ->
  Handlers.rainbowEffect (Handlers.frames k s) = 1%Z /\
  Handlers.time (Handlers.frames k s)
  = Handlers.time s + INR k * (INR (Handlers.rainbowLoops s) * 0.01) /\
  Handlers.rainbowLoops (Handlers.frames k s) = Handlers.rainbowLoops s.
Proof.
  intros Hon. induction k as [| k (H1 & H2 & H3)].
  - unfold Handlers.frames. change (Nat.iter 0 Handlers.frame s) with s.
    cbn [INR]. split; [exact Hon |]. split; [lra | reflexivity].
  - unfold Handlers.frames in *. rewrite Nat.iter_succ.
    destruct (frame_rainbow_on _ H1) as (F1 & F2 & F3).
    rewrite F1, F2, F3, H2, H3, S_INR. repeat split. lra.
Qed.

Lemma frames_rainbow_off (k : nat) (s : Handlers.State) :
  Handlers.rainbowEffect s <> 1%Z ->
  Handlers.rainbowEffect (Handlers.frames k s) = Handlers.rainbowEffect s /\
  Handlers.time (Handlers.frames k s) = Handlers.time s /\
  ((1 <= k)%nat -> Handlers.rainbowLoops (Handlers.frames k s) = 0%nat).
Proof.
  intros Hoff. induction k as [| k (H1 & H2 & H3)].
  - repeat split. intros H. inversion H.
  - unfold Handlers.frames in *. rewrite Nat.iter_succ.
    assert (Hoff' : Handlers.rainbowEffect (Nat.iter k Handlers.frame s)
                    <> 1%Z) by (rewrite H1; exact Hoff).
    destruct (frame_rainbow_off _ Hoff') as (F1 & F2 & F3).
    rewrite F1, F2, F3, H1, H2. repeat split.
Qed.

(** X24: While the rainbow effect is on, every frame advances the hue by 0.01
    for each animation loop that is running, and the number of running
    loops stays what it is. *)
Theorem hue_rate_follows_loop_count (k : nat) (s : Handlers.State) :
  Handlers.rainbowEffect s = 1%Z ->
  Handlers.time (Handlers.frames k s)
  = Handlers.time s + INR k * (INR (Handlers.rainbowLoops s) * 0.01) /\
  Handlers.rainbowLoops (Handlers.frames k s) = Handlers.rainbowLoops s.
Proof.
  intros Hon. destruct (frames_rainbow_on k s Hon) as (_ & H2 & H3).
  split; assumption.
Qed.

Lemma rainbow_on (s : Handlers.State) :
  Handlers.rainbowEffect (Handlers.handleEffectChange "rainbow" true s) = 1%Z
  /\ Handlers.time (Handlers.handleEffectChange "rainbow" true s) = 0.01
  /\ Handlers.rainbowLoops (Handlers.handleEffectChange "rainbow" true s)
     = S (Handlers.rainbowLoops s).
Proof.
  change (Handlers.handleEffectChange "rainbow" true s)
    with (Handlers.applyRainbowEffect true s).
  unfold Handlers.applyRainbowEffect, Handlers.needUpdate,
    Handlers.updateTime.
  cbn [Handlers.rainbowEffect Z.eqb Pos.eqb Handlers.time
       Handlers.rainbowLoops].
  repeat split. lra.
Qed.

Lemma rainbow_off (s : Handlers.State) :
  Handlers.rainbowEffect (Handlers.handleEffectChange "rainbow" false s)
  = 0%Z
  /\ Handlers.time (Handlers.handleEffectChange "rainbow" false s)
     = Handlers.time s
  /\ Handlers.rainbowLoops (Handlers.handleEffectChange "rainbow" false s)
     = Handlers.rainbowLoops s.
Proof. repeat split. Qed.

Lemma hue_rate_follows_loop_count_witness :
  Handlers.time
    (Handlers.frames 3
       (Handlers.handleEffectChange "rainbow" true Handlers.initialState))
  = Handlers.time
      (Handlers.handleEffectChange "rainbow" true Handlers.initialState)
    + INR 3
      * (INR (Handlers.rainbowLoops
                (Handlers.handleEffectChange "rainbow" true
                   Handlers.initialState)) * 0.01).
Proof.
  exact (proj1 (hue_rate_follows_loop_count 3 _
                  (proj1 (rainbow_on Handlers.initialState)))).
Defined.

(** X25: Every activation starts one more loop, also when loops of an earlier
    activation are still waiting: switching the rainbow effect on, off and
    on again before the next frame leaves two loops running, and the hue
    then advances by 0.02 per frame instead of 0.01. *)
Theorem restart_within_a_frame_doubles_rate (k : nat) (s : Handlers.State) :
  Handlers.rainbowLoops s = 0%nat ->
  let once := Handlers.handleEffectChange "rainbow" true s in
  let again :=
    Handlers.handleEffectChange "rainbow" true
      (Handlers.handleEffectChange "rainbow" false once) in
  Handlers.rainbowLoops again = 2%nat /\
  Handlers.time (Handlers.frames k again) = 0.01 + INR k * 0.02 /\
  Handlers.time (Handlers.frames k once) = 0.01 + INR k * 0.01.
Proof.
  intros Hnone. cbv zeta.
  destruct (rainbow_on s) as (A1 & A2 & A3).
  destruct (rainbow_off (Handlers.handleEffectChange "rainbow" true s))
    as (_ & _ & B3).
  destruct (rainbow_on
              (Handlers.handleEffectChange "rainbow" false
                 (Handlers.handleEffectChange "rainbow" true s)))
    as (C1 & C2 & C3).
  rewrite B3, A3, Hnone in C3.
  rewrite Hnone in A3.
  split; [exact C3 |]. split.
  - destruct (frames_rainbow_on k _ C1) as (_ & H & _).
    rewrite H, C2, C3. cbn [INR]. lra.
  - destruct (frames_rainbow_on k _ A1) as (_ & H & _).
    rewrite H, A2, A3. cbn [INR]. lra.
Qed.

Lemma restart_within_a_frame_doubles_rate_witness :
  Handlers.rainbowLoops
    (Handlers.handleEffectChange "rainbow" true
       (Handlers.handleEffectChange "rainbow" false
          (Handlers.handleEffectChange "rainbow" true
             Handlers.initialState))) = 2%nat.
Proof.
  exact (proj1 (restart_within_a_frame_doubles_rate
                  0 Handlers.initialState eq_refl)).
Defined.

(** X26: Switching the rainbow effect off freezes the hue where it is, for any
    number of frames, and the first frame after it ends every loop. *)
Theorem switch_off_freezes_hue (k : nat) (s : Handlers.State) :
  let off := Handlers.handleEffectChange "rainbow" false s in
  Handlers.time (Handlers.frames k off) = Handlers.time s /\
  Handlers.rainbowEffect (Handlers.frames k off) = 0%Z /\
  ((1 <= k)%nat -> Handlers.rainbowLoops (Handlers.frames k off) = 0%nat).
Proof.
  cbv zeta. destruct (rainbow_off s) as (B1 & B2 & _).
  assert (Hoff : Handlers.rainbowEffect
                   (Handlers.handleEffectChange "rainbow" false s) <> 1%Z)
    by (rewrite B1; discriminate).
  destruct (frames_rainbow_off k _ Hoff) as (H1 & H2 & H3).
  rewrite H1, H2, B1, B2. repeat split. exact H3.
Qed.

Lemma switch_off_freezes_hue_witness :
  Handlers.rainbowLoops
    (Handlers.frames 1
       (Handlers.handleEffectChange "rainbow" false
          (Handlers.handleEffectChange "rainbow" true
             Handlers.initialState))) = 0%nat.
Proof.
  destruct (switch_off_freezes_hue 1
              (Handlers.handleEffectChange "rainbow" true
                 Handlers.initialState)) as (_ & _ & H).
  exact (H (le_n 1)).
Defined.

(** X27: The [switch] has no default: a name outside the four cases changes
    nothing, and that is what happens to [position], for which the info
    panel has a button. *)
Theorem unhandled_effect_changes_nothing
        (name : string) (active : bool) (s : Handlers.State) :
  ~ In name ["rainbow"; "pulse"; "glow"; "invert"]%string ->
  Handlers.handleEffectChange name active s = s /\
  In "position"%string Panel.effects /\
  Handlers.handleEffectChange "position" active s = s.
Proof.
  intros Hnot. split; [| split; [cbn; tauto | reflexivity]].
  unfold Handlers.handleEffectChange.
  destruct (String.eqb_spec name "rainbow") as [E | _];
    [exfalso; apply Hnot; subst; cbn; tauto |].
  destruct (String.eqb_spec name "pulse") as [E | _];
    [exfalso; apply Hnot; subst; cbn; tauto |].
  destruct (String.eqb_spec name "glow") as [E | _];
    [exfalso; apply Hnot; subst; cbn; tauto |].
  destruct (String.eqb_spec name "invert") as [E | _];
    [exfalso; apply Hnot; subst; cbn; tauto |].
  reflexivity.
Qed.

Lemma unhandled_effect_changes_nothing_witness :
  Handlers.handleEffectChange "blur" true Handlers.initialState
  = Handlers.initialState.
Proof.
  apply (unhandled_effect_changes_nothing "blur" true Handlers.initialState).
  cbn. intros [H | [H | [H | [H | []]]]]; discriminate.
Defined.
